(** * Scream / OneScream engine: [criticalsection.h]

    A verification model of [Sync::CriticalSection] (a recursive lock over the
    native Win32 critical section or a POSIX mutex) and of [AtomicOps]
    ([SafeGet], [SafeSet], [Increment], [Decrement]).

    The header selects its code with the preprocessor: [WIN32] or [__APPLE__]
    for the platform, [_DEBUG] for owner tracking.  Both choices are explicit
    parameters here ([build]).  The operating-system primitives the header
    calls are not part of the repository; their documented behaviour is
    written down in [Win32] and [Pthread] below, and the header's own code is
    embedded on top of them, statement by statement.

    A method call of a thread is a function of the caller's identifier and
    the object; it returns, blocks or is undefined ([outcome]).  Code that
    runs next to other threads is a [thread]: a sequence of atomic steps on
    the shared state, which a [machine] interleaves.  The destructors (which
    delete the native lock) and [pthread_mutexattr_destroy] change nothing a
    later call reads and are left out. *)

From Stdlib Require Import ZArith Lia Bool.
From stdpp Require Import base tactics option list gmap relations.

Local Open Scope Z_scope.

(** ** Build configuration *)

(** [#if defined(WIN32) ... #elif defined(__APPLE__)] *)
Inductive platform := WIN32 | APPLE.

Record build := Build { target : platform; _DEBUG : bool }.

(** [#ifdef _DEBUG  #define CS_TRACK_OWNER 1] *)
Definition CS_TRACK_OWNER (b : build) : bool := _DEBUG b.

(** [#define TRACK_OWNER(x) x] when [CS_TRACK_OWNER], and nothing otherwise. *)
Definition TRACK_OWNER {A : Type} (b : build) (x : A → A) : A → A :=
  if CS_TRACK_OWNER b then x else id.

(** ** Threads and call outcomes *)

(** A thread identifier: a [DWORD] from [GetCurrentThreadId()] or a
    [pthread_t] from [pthread_self()].  0 is no thread's identifier
    ("Windows docs say 0 is not a valid thread id"). *)
Definition thread_id := Z.

(** What a call does for the thread that makes it: it returns, it suspends the
    thread (the lock is taken: the call is not enabled in this state), or the
    language leaves its behaviour undefined. *)
Inductive outcome (A : Type) : Type :=
| Returns (a : A)
| Blocks
| Undefined.
Arguments Returns {A} a.
Arguments Blocks {A}.
Arguments Undefined {A}.

Definition outcome_bind {A B : Type} (f : A → outcome B) (o : outcome A) : outcome B :=
  match o with
  | Returns a => f a
  | Blocks => Blocks
  | Undefined => Undefined
  end.

(** Who owns a native lock, and how many times the owner has entered it. *)
Inductive ownership :=
| Free
| Owned (t : thread_id) (n : positive).

(** ** The Win32 critical-section API, as documented *)
Module Win32.

Definition BOOL := Z.
Definition FALSE : BOOL := 0.
Definition TRUE : BOOL := 1.

Record CRITICAL_SECTION := mkCRITICAL_SECTION { cs_owner : ownership }.

Definition InitializeCriticalSection : CRITICAL_SECTION :=
  {| cs_owner := Free |}.

(** Waits for ownership; the owner may enter again without blocking. *)
Definition EnterCriticalSection (self : thread_id) (c : CRITICAL_SECTION)
    : outcome CRITICAL_SECTION :=
  match cs_owner c with
  | Free => Returns {| cs_owner := Owned self 1 |}
  | Owned t n =>
      if t =? self then Returns {| cs_owner := Owned t (Pos.succ n) |} else Blocks
  end.

(** Nonzero when the section was entered or the caller already owns it;
    zero, at once, when another thread owns it. *)
Definition TryEnterCriticalSection (self : thread_id) (c : CRITICAL_SECTION)
    : BOOL * CRITICAL_SECTION :=
  match cs_owner c with
  | Free => (TRUE, {| cs_owner := Owned self 1 |})
  | Owned t n =>
      if t =? self then (TRUE, {| cs_owner := Owned t (Pos.succ n) |}) else (FALSE, c)
  end.

(** One leave per enter; leaving a section the caller does not own is an
    error the API does not define. *)
Definition LeaveCriticalSection (self : thread_id) (c : CRITICAL_SECTION)
    : outcome CRITICAL_SECTION :=
  match cs_owner c with
  | Free => Undefined
  | Owned t n =>
      if t =? self then
        Returns {| cs_owner := if (n =? 1)%positive then Free else Owned t (Pos.pred n) |}
      else Undefined
  end.

End Win32.

(** ** POSIX mutexes, as documented *)
Module Pthread.

Inductive mutex_type :=
| PTHREAD_MUTEX_NORMAL
| PTHREAD_MUTEX_ERRORCHECK
| PTHREAD_MUTEX_RECURSIVE.

Definition PTHREAD_MUTEX_DEFAULT : mutex_type := PTHREAD_MUTEX_NORMAL.

Definition EPERM : Z := 1.
Definition EDEADLK : Z := 11.
Definition EBUSY : Z := 16.

Record pthread_mutexattr_t := mkAttr { attr_type : mutex_type }.

Record pthread_mutex_t := mkMutex { m_type : mutex_type; m_owner : ownership }.

Definition pthread_mutexattr_init : pthread_mutexattr_t :=
  {| attr_type := PTHREAD_MUTEX_DEFAULT |}.

Definition pthread_mutexattr_settype (a : pthread_mutexattr_t) (ty : mutex_type)
    : pthread_mutexattr_t :=
  {| attr_type := ty |}.

Definition pthread_mutex_init (a : pthread_mutexattr_t) : pthread_mutex_t :=
  {| m_type := attr_type a; m_owner := Free |}.

(** Returns the error number (0 on success) and the mutex.  Relocking by the
    owner succeeds on a recursive mutex, fails with [EDEADLK] on an
    error-checking one and deadlocks on a normal one. *)
Definition pthread_mutex_lock (self : thread_id) (m : pthread_mutex_t)
    : outcome (Z * pthread_mutex_t) :=
  match m_owner m with
  | Free => Returns (0, {| m_type := m_type m; m_owner := Owned self 1 |})
  | Owned t n =>
      if t =? self then
        match m_type m with
        | PTHREAD_MUTEX_RECURSIVE =>
            Returns (0, {| m_type := m_type m; m_owner := Owned t (Pos.succ n) |})
        | PTHREAD_MUTEX_ERRORCHECK => Returns (EDEADLK, m)
        | PTHREAD_MUTEX_NORMAL => Blocks
        end
      else Blocks
  end.

(** Like [pthread_mutex_lock], but returns [EBUSY] at once where it would
    wait. *)
Definition pthread_mutex_trylock (self : thread_id) (m : pthread_mutex_t)
    : Z * pthread_mutex_t :=
  match m_owner m with
  | Free => (0, {| m_type := m_type m; m_owner := Owned self 1 |})
  | Owned t n =>
      if t =? self then
        match m_type m with
        | PTHREAD_MUTEX_RECURSIVE =>
            (0, {| m_type := m_type m; m_owner := Owned t (Pos.succ n) |})
        | _ => (EBUSY, m)
        end
      else (EBUSY, m)
  end.

(** Unlocking by the owner lowers the count and frees the mutex at zero.
    Unlocking a mutex the caller does not own fails with [EPERM] on
    recursive and error-checking mutexes and is undefined on a normal one. *)
Definition pthread_mutex_unlock (self : thread_id) (m : pthread_mutex_t)
    : outcome (Z * pthread_mutex_t) :=
  let not_owner :=
    match m_type m with
    | PTHREAD_MUTEX_NORMAL => Undefined
    | _ => Returns (EPERM, m)
    end in
  match m_owner m with
  | Free => not_owner
  | Owned t n =>
      if t =? self then
        Returns (0, {| m_type := m_type m;
                       m_owner := if (n =? 1)%positive then Free else Owned t (Pos.pred n) |})
      else not_owner
  end.

Definition pthread_equal (a b : thread_id) : bool := a =? b.

End Pthread.

#[global] Instance outcome_ret : MRet outcome := @Returns.
#[global] Instance outcome_mbind : MBind outcome := @outcome_bind.

(** ** [namespace Sync]: the class [CriticalSection] *)
Module Sync.
Import Win32 Pthread.

(** The native member: [CRITICAL_SECTION crit_] in the [WIN32] class,
    [pthread_mutex_t mutex_] in the [__APPLE__] class. *)
Inductive native :=
| crit_ (c : CRITICAL_SECTION)
| mutex_ (m : pthread_mutex_t).

(** [TRACK_OWNER(DWORD thread_)] / [TRACK_OWNER(pthread_t thread_)]: the
    member exists in builds that track the owner only ([None] otherwise). *)
Record CriticalSection := mkCriticalSection {
  handle : native;
  thread_ : option thread_id
}.

(** The assignment [thread_ = v]. *)
Definition set_thread_ (v : thread_id) (cs : CriticalSection) : CriticalSection :=
  {| handle := handle cs; thread_ := Some v |}.

Definition set_handle (h : native) (cs : CriticalSection) : CriticalSection :=
  {| handle := h; thread_ := thread_ cs |}.

(** The constructor [CriticalSection()]: [InitializeCriticalSection(&crit_)],
    or a mutex initialised from an attribute object whose type was set to
    [PTHREAD_MUTEX_RECURSIVE]; then [TRACK_OWNER(thread_ = 0)]. *)
Definition new_CriticalSection (b : build) : CriticalSection :=
  let h :=
    match target b with
    | WIN32 => crit_ InitializeCriticalSection
    | APPLE =>
        let mutex_attribute := pthread_mutexattr_init in
        let mutex_attribute :=
          pthread_mutexattr_settype mutex_attribute PTHREAD_MUTEX_RECURSIVE in
        mutex_ (pthread_mutex_init mutex_attribute)
    end in
  TRACK_OWNER b (set_thread_ 0) {| handle := h; thread_ := None |}.

(** [void Enter()]: the native lock call (its result is not looked at), then
    [TRACK_OWNER(thread_ = GetCurrentThreadId())] or [pthread_self()]. *)
Definition Enter (b : build) (self : thread_id) (cs : CriticalSection)
    : outcome CriticalSection :=
  match handle cs with
  | crit_ c =>
      c' ← EnterCriticalSection self c;
      mret (TRACK_OWNER b (set_thread_ self) (set_handle (crit_ c') cs))
  | mutex_ m =>
      r ← pthread_mutex_lock self m;
      mret (TRACK_OWNER b (set_thread_ self) (set_handle (mutex_ r.2) cs))
  end.

(** [bool TryEnter()]: when [TryEnterCriticalSection(&crit_) != FALSE] or
    [pthread_mutex_trylock(&mutex_) == 0], tracks the caller as owner and
    returns true; otherwise returns false. *)
Definition TryEnter (b : build) (self : thread_id) (cs : CriticalSection)
    : bool * CriticalSection :=
  match handle cs with
  | crit_ c =>
      let r := TryEnterCriticalSection self c in
      if negb (r.1 =? FALSE)
      then (true, TRACK_OWNER b (set_thread_ self) (set_handle (crit_ r.2) cs))
      else (false, set_handle (crit_ r.2) cs)
  | mutex_ m =>
      let r := pthread_mutex_trylock self m in
      if r.1 =? 0
      then (true, TRACK_OWNER b (set_thread_ self) (set_handle (mutex_ r.2) cs))
      else (false, set_handle (mutex_ r.2) cs)
  end.

(** [void Leave()]: [TRACK_OWNER(thread_ = 0)], then the native unlock call
    (its result is not looked at). *)
Definition Leave (b : build) (self : thread_id) (cs : CriticalSection)
    : outcome CriticalSection :=
  let cs := TRACK_OWNER b (set_thread_ 0) cs in
  match handle cs with
  | crit_ c =>
      c' ← LeaveCriticalSection self c;
      mret (set_handle (crit_ c') cs)
  | mutex_ m =>
      r ← pthread_mutex_unlock self m;
      mret (set_handle (mutex_ r.2) cs)
  end.

(** [virtual void Lock() {Enter();}], [virtual void UnLock() {Leave();}],
    [virtual bool TryLock() {return TryEnter();}] *)
Definition Lock := Enter.
Definition UnLock := Leave.
Definition TryLock := TryEnter.

(** [bool CurrentThreadIsOwner() const], compiled under [#if CS_TRACK_OWNER]
    only: [None] stands for a build without the method. *)
Definition CurrentThreadIsOwner (self : thread_id) (cs : CriticalSection)
    : option bool :=
  match thread_ cs with
  | Some owner =>
      Some match handle cs with
           | crit_ _ => owner =? self
           | mutex_ _ => pthread_equal owner self
           end
  | None => None
  end.

(** *** Reading a [CriticalSection] as a state of the lock *)

Definition owner_of (cs : CriticalSection) : ownership :=
  match handle cs with
  | crit_ c => cs_owner c
  | mutex_ m => m_owner m
  end.

(** The states the specification names for the lock. *)
Inductive lock_state :=
| Unlocked
| LockedByT (thread : thread_id) (count : nat).

Definition state_of (cs : CriticalSection) : lock_state :=
  match owner_of cs with
  | Free => Unlocked
  | Owned t n => LockedByT t (Pos.to_nat n)
  end.

(** The objects a program can hold: what the constructor returns, and what
    any call of any thread that returns leaves behind. *)
Inductive reachable (b : build) : CriticalSection → Prop :=
| reach_new : reachable b (new_CriticalSection b)
| reach_Enter self cs cs' :
    reachable b cs → Enter b self cs = Returns cs' → reachable b cs'
| reach_TryEnter self cs :
    reachable b cs → reachable b (TryEnter b self cs).2
| reach_Leave self cs cs' :
    reachable b cs → Leave b self cs = Returns cs' → reachable b cs'.

(** The mutex of an [__APPLE__] object is recursive. *)
Definition recursive (cs : CriticalSection) : Prop :=
  match handle cs with
  | crit_ _ => True
  | mutex_ m => m_type m = PTHREAD_MUTEX_RECURSIVE
  end.

End Sync.


(** ** Threads: programs as sequences of atomic steps *)

(** A thread over a shared state [St] either has returned, or is about to make
    one atomic step on the shared state and go on with its result.  A step
    that blocks is not enabled; the thread stays where it is. *)
Inductive thread (St A : Type) : Type :=
| Ret (a : A)
| Atomic (B : Type) (act : St → outcome (B * St)) (k : B → thread St A).
Arguments Ret {St A} a.
Arguments Atomic {St A B} act k.

Fixpoint thread_bind {St A B : Type} (f : A → thread St B) (t : thread St A)
    : thread St B :=
  match t with
  | Ret a => f a
  | Atomic act k => Atomic act (λ x, thread_bind f (k x))
  end.

#[global] Instance thread_ret {St} : MRet (thread St) := @Ret St.
#[global] Instance thread_mbind {St} : MBind (thread St) := @thread_bind St.

Definition atomic {St B : Type} (act : St → outcome (B * St)) : thread St B :=
  Atomic act Ret.

(** A thread running alone, up to its return. *)
Fixpoint run {St A : Type} (t : thread St A) (s : St) : outcome (A * St) :=
  match t with
  | Ret a => Returns (a, s)
  | Atomic act k => r ← act s; run (k r.1) r.2
  end.

(** The first [n] steps of a thread running alone. *)
Fixpoint advance {St A : Type} (n : nat) (t : thread St A) (s : St)
    : outcome (thread St A * St) :=
  match n with
  | O => Returns (t, s)
  | S n' =>
      match t with
      | Ret _ => Returns (t, s)
      | Atomic act k => r ← act s; advance n' (k r.1) r.2
      end
  end.

(** One step of one thread. *)
Definition thread_step {St A : Type}
    (t : thread St A) (s : St) (t' : thread St A) (s' : St) : Prop :=
  match t with
  | Ret _ => False
  | Atomic act k => ∃ b, act s = Returns (b, s') ∧ t' = k b
  end.

(** The next step of the thread has undefined behaviour. *)
Definition thread_undefined {St A : Type} (t : thread St A) (s : St) : Prop :=
  match t with
  | Ret _ => False
  | Atomic act _ => act s = Undefined
  end.

Definition returned {St A : Type} (t : thread St A) : Prop :=
  match t with
  | Ret _ => True
  | Atomic _ _ => False
  end.

(** Threads of one process, preemptively scheduled: any thread whose next
    step is enabled may make it. *)
Definition machine (St A : Type) : Type := list (thread St A) * St.

Inductive mstep {St A : Type} : relation (machine St A) :=
| mstep_thread (i : nat) (ts : list (thread St A)) (s : St) t t' s' :
    ts !! i = Some t →
    thread_step t s t' s' →
    mstep (ts, s) (<[i:=t']> ts, s').

Definition machine_undefined {St A : Type} (m : machine St A) : Prop :=
  ∃ i t, m.1 !! i = Some t ∧ thread_undefined t m.2.

Definition all_returned {St A : Type} (m : machine St A) : Prop :=
  Forall returned m.1.

(** ** [class AtomicOps] *)
Module AtomicOps.
Import Sync.

(** The memory of the process: the integer objects by address, and the
    function-local [static Sync::CriticalSection* crit] of [StaticCrit]
    ([None] until its initialiser has run).  [SafeGet] and [SafeSet] work on
    a [long] and only move values, so its width plays no part; [Increment]
    and [Decrement] compute on an [int]. *)
Record process := mkProcess {
  heap : gmap Z Z;
  crit : option CriticalSection
}.

Definition set_heap (h : gmap Z Z) (ps : process) : process :=
  {| heap := h; crit := crit ps |}.

Definition set_crit (c : CriticalSection) (ps : process) : process :=
  {| heap := heap ps; crit := Some c |}.

(** A plain read of the object at [l]. *)
Definition load (l : Z) (ps : process) : outcome (Z * process) :=
  match heap ps !! l with
  | Some v => Returns (v, ps)
  | None => Undefined
  end.

(** [int], 32 bits wide. *)
Definition INT_MIN : Z := - 2 ^ 31.
Definition INT_MAX : Z := 2 ^ 31 - 1.

Definition representable (z : Z) : bool := (INT_MIN <=? z) && (z <=? INT_MAX).

(** The two's-complement value of [z] in 32 bits. *)
Definition wrap32 (z : Z) : Z := (z - INT_MIN) mod 2 ^ 32 + INT_MIN.

(** A plain write of the [int] result [z] of an arithmetic expression to the
    object at [l], returning the value written.  The arithmetic is done in 32
    bits: the compiled [++*i] and [--*i] are a 32-bit add and subtract on the
    object, so a result outside the range of [int] is stored as its
    two's-complement value.  (The language itself leaves an overflow of a
    signed [int] without a defined result; this is what the compiled code
    does.) *)
Definition store_int (l : Z) (z : Z) (ps : process) : outcome (Z * process) :=
  match heap ps !! l with
  | Some _ => Returns (wrap32 z, set_heap (<[l:=wrap32 z]> (heap ps)) ps)
  | None => Undefined
  end.

(** The Win32 interlocked functions: one atomic read-modify-write each.
    [InterlockedExchange] returns the initial value of the target; the
    increment and decrement return the resulting value, computed in 32 bits. *)
Definition InterlockedExchange (Target Value : Z) (ps : process)
    : outcome (Z * process) :=
  match heap ps !! Target with
  | Some old => Returns (old, set_heap (<[Target:=Value]> (heap ps)) ps)
  | None => Undefined
  end.

Definition InterlockedIncrement (Addend : Z) (ps : process) : outcome (Z * process) :=
  match heap ps !! Addend with
  | Some v =>
      Returns (wrap32 (v + 1), set_heap (<[Addend:=wrap32 (v + 1)]> (heap ps)) ps)
  | None => Undefined
  end.

Definition InterlockedDecrement (Addend : Z) (ps : process) : outcome (Z * process) :=
  match heap ps !! Addend with
  | Some v =>
      Returns (wrap32 (v - 1), set_heap (<[Addend:=wrap32 (v - 1)]> (heap ps)) ps)
  | None => Undefined
  end.

(** The GCC builtin: an atomic exchange that returns the previous contents. *)
Definition __sync_lock_test_and_set (ptr value : Z) (ps : process)
    : outcome (Z * process) :=
  match heap ps !! ptr with
  | Some old => Returns (old, set_heap (<[ptr:=value]> (heap ps)) ps)
  | None => Undefined
  end.

(** [static long SafeGet(long& nVal)].  The call is
    [InterlockedExchange(&nVal, nVal)] (or the builtin, alike): its second
    argument is the value of [nVal], read from memory before the exchange. *)
Definition SafeGet (b : build) (nVal : Z) : thread process Z :=
  arg ← atomic (load nVal);
  match target b with
  | WIN32 => atomic (InterlockedExchange nVal arg)
  | APPLE => atomic (__sync_lock_test_and_set nVal arg)
  end.

(** [static long SafeSet(long& nVal, long nNewVal)] *)
Definition SafeSet (b : build) (nVal nNewVal : Z) : thread process Z :=
  match target b with
  | WIN32 => atomic (InterlockedExchange nVal nNewVal)
  | APPLE => atomic (__sync_lock_test_and_set nVal nNewVal)
  end.

(** [static Sync::CriticalSection* StaticCrit()]: the initialiser
    [new Sync::CriticalSection()] runs on the first call only (the compiler
    guards the initialisation of a local static: one step). *)
Definition StaticCrit (b : build) (ps : process) : outcome (unit * process) :=
  Returns (tt, match crit ps with
               | None => set_crit (new_CriticalSection b) ps
               | Some _ => ps
               end).

Definition on_crit (f : CriticalSection → outcome CriticalSection) (ps : process)
    : outcome (unit * process) :=
  match crit ps with
  | Some cs => cs' ← f cs; mret (tt, set_crit cs' ps)
  | None => Undefined
  end.

(** Modelled from the spec: the scope guard [SafeLock] (declared in [isync.h],
    which is not among the sources) "acquires the lock on construction and
    unconditionally releases it on destruction". *)
Definition SafeLock_ctor (b : build) (self : thread_id) : process → outcome (unit * process) :=
  on_crit (Lock b self).

Definition SafeLock_dtor (b : build) (self : thread_id) : process → outcome (unit * process) :=
  on_crit (UnLock b self).

(** [static int Increment(int* i)]: [::InterlockedIncrement] under
    [#ifdef WIN32]; otherwise [SafeLock scope(StaticCrit());] and the return
    of the pre-increment [++*i], a plain read and a plain write of the [int],
    after which the guard's destructor releases the lock. *)
Definition Increment (b : build) (self : thread_id) (i : Z) : thread process Z :=
  match target b with
  | WIN32 => atomic (InterlockedIncrement i)
  | APPLE =>
      _ ← atomic (StaticCrit b);
      _ ← atomic (SafeLock_ctor b self);
      v ← atomic (load i);
      r ← atomic (store_int i (v + 1));
      _ ← atomic (SafeLock_dtor b self);
      mret r
  end.

(** [static int Decrement(int* i)]: alike, with [::InterlockedDecrement] and
    the pre-decrement [--*i]. *)
Definition Decrement (b : build) (self : thread_id) (i : Z) : thread process Z :=
  match target b with
  | WIN32 => atomic (InterlockedDecrement i)
  | APPLE =>
      _ ← atomic (StaticCrit b);
      _ ← atomic (SafeLock_ctor b self);
      v ← atomic (load i);
      r ← atomic (store_int i (v - 1));
      _ ← atomic (SafeLock_dtor b self);
      mret r
  end.

End AtomicOps.

(** ** A shared counter guarded by one [CriticalSection]

    The test of the specification: each of [N] threads runs, [M] times,
    [cs.Enter(); tmp = counter; counter = tmp + 1; cs.Leave();].  The
    increment is not atomic: its read and its write are separate steps. *)
Module Counter.
Import Sync.

Record shared := mkShared {
  cs : CriticalSection;
  counter : Z
}.

Definition enter (b : build) (self : thread_id) (s : shared) : outcome (unit * shared) :=
  c ← Enter b self (cs s); mret (tt, {| cs := c; counter := counter s |}).

Definition leave (b : build) (self : thread_id) (s : shared) : outcome (unit * shared) :=
  c ← Leave b self (cs s); mret (tt, {| cs := c; counter := counter s |}).

Definition read (s : shared) : outcome (Z * shared) :=
  Returns (counter s, s).

Definition write (v : Z) (s : shared) : outcome (unit * shared) :=
  Returns (tt, {| cs := cs s; counter := v |}).

(** The rest of one iteration, from each of its program points. *)
Definition stored (b : build) (self : thread_id) (rest : thread shared unit)
    : thread shared unit :=
  _ ← atomic (leave b self); rest.

Definition loaded (b : build) (self : thread_id) (tmp : Z) (rest : thread shared unit)
    : thread shared unit :=
  _ ← atomic (write (tmp + 1)); stored b self rest.

Definition entered (b : build) (self : thread_id) (rest : thread shared unit)
    : thread shared unit :=
  tmp ← atomic read; loaded b self tmp rest.

Definition iteration (b : build) (self : thread_id) (rest : thread shared unit)
    : thread shared unit :=
  _ ← atomic (enter b self); entered b self rest.

Fixpoint worker (b : build) (self : thread_id) (M : nat) : thread shared unit :=
  match M with
  | O => Ret tt
  | S M' => iteration b self (worker b self M')
  end.

(** The identifier of the [i]-th thread: distinct, and never 0. *)
Definition tid (i : nat) : thread_id := Z.of_nat i + 1.

Definition init (b : build) (N M : nat) : machine shared unit :=
  (map (λ i, worker b (tid i) M) (seq 0 N),
   {| cs := new_CriticalSection b; counter := 0 |}).

(** A thread is inside the critical region: it has entered and not yet left. *)
Definition in_region (b : build) (t : thread shared unit) : Prop :=
  ∃ self rest,
    t = entered b self rest ∨ (∃ tmp, t = loaded b self tmp rest) ∨ t = stored b self rest.

End Counter.


(** * Definitions for the proofs *)

(** The object [cs] with the ownership of its native lock replaced. *)
Definition with_owner (o : ownership) (cs : Sync.CriticalSection) : Sync.CriticalSection :=
  Sync.set_handle
    match Sync.handle cs with
    | Sync.crit_ _ => Sync.crit_ {| Win32.cs_owner := o |}
    | Sync.mutex_ m =>
        Sync.mutex_ {| Pthread.m_type := Pthread.m_type m; Pthread.m_owner := o |}
    end cs.

(** The static lock of [StaticCrit] is not held: its initialiser has not run
    yet, or it is free.  This is its state whenever no [Increment] or
    [Decrement] is under way; nothing else can reach it ([StaticCrit] is
    private). *)
Definition lock_free (ps : AtomicOps.process) : Prop :=
  match AtomicOps.crit ps with
  | None => True
  | Some cs => Sync.recursive cs ∧ Sync.owner_of cs = Free
  end.

(** The static lock is held by thread [t]. *)
Definition lock_held_by (t : thread_id) (ps : AtomicOps.process) : Prop :=
  match AtomicOps.crit ps with
  | None => False
  | Some cs => Sync.recursive cs ∧ ∃ n, Sync.owner_of cs = Owned t n
  end.

(** The lock-based body shared by [Increment] and [Decrement]: [f] is the
    successor or the predecessor. *)
Definition locked_update (b : build) (self : thread_id) (i : Z) (f : Z → Z)
    : thread AtomicOps.process Z :=
  _ ← atomic (AtomicOps.StaticCrit b);
  _ ← atomic (AtomicOps.SafeLock_ctor b self);
  v ← atomic (AtomicOps.load i);
  r ← atomic (AtomicOps.store_int i (f v));
  _ ← atomic (AtomicOps.SafeLock_dtor b self);
  mret r.

Section Counter_invariant.
Import Sync Counter.
Context (b : build) (N M : nat).

(** Where a worker stands: before an iteration with [k] iterations to go, or
    inside one, with [k] more to follow it. *)
Inductive pc :=
| Idle (k : nat)
| Entered (k : nat)
| Loaded (tmp : Z) (k : nat)
| Stored (k : nat).

Definition code (self : thread_id) (p : pc) : thread shared unit :=
  match p with
  | Idle k => worker b self k
  | Entered k => entered b self (worker b self k)
  | Loaded tmp k => loaded b self tmp (worker b self k)
  | Stored k => stored b self (worker b self k)
  end.

Definition inside (p : pc) : bool :=
  match p with
  | Idle _ => false
  | _ => true
  end.

(** Writes of the counter still to come. *)
Definition todo (p : pc) : nat :=
  match p with
  | Idle k => k
  | Entered k => S k
  | Loaded _ k => S k
  | Stored k => k
  end.

(** Steps still to come. *)
Definition steps_left (p : pc) : nat :=
  match p with
  | Idle k => 4 * k
  | Entered k => 4 * k + 3
  | Loaded _ k => 4 * k + 2
  | Stored k => 4 * k + 1
  end.

(** The lock is free and no thread is inside, or it is held once, by the one
    thread that is inside. *)
Definition lock_ok (pcs : list pc) (o : ownership) : Prop :=
  match o with
  | Free => ∀ i p, pcs !! i = Some p → inside p = false
  | Owned t n =>
      n = 1%positive ∧
      ∃ i p, pcs !! i = Some p ∧ inside p = true ∧ t = tid i ∧
             ∀ j q, pcs !! j = Some q → inside q = true → j = i
  end.

(** The invariant of the machine after [n] steps. *)
Definition Inv (n : nat) (m : machine shared unit) : Prop :=
  ∃ pcs : list pc,
    length m.1 = length pcs ∧
    (∀ i p, pcs !! i = Some p → m.1 !! i = Some (code (tid i) p)) ∧
    counter m.2 + Z.of_nat (sum_list_with todo pcs) = Z.of_nat (N * M) ∧
    (n + sum_list_with steps_left pcs = 4 * (N * M))%nat ∧
    recursive (cs m.2) ∧
    lock_ok pcs (owner_of (cs m.2)) ∧
    (∀ i tmp k, pcs !! i = Some (Loaded tmp k) → tmp = counter m.2).

(** Who owns the lock after the next step of [t] from [s]: an observation
    that tells the program points of a worker apart. *)
Definition first_step (t : thread shared unit) (s : shared) : option ownership :=
  match t with
  | Ret _ => None
  | Atomic act _ =>
      match act s with
      | Returns r => Some (owner_of (cs r.2))
      | _ => None
      end
  end.

End Counter_invariant.

#[global] Instance pc_eq_dec : EqDecision pc.
Proof. solve_decision. Defined.


(** ** Further definitions: nested calls, owner tracking erased, and two
    concurrent uses of [AtomicOps] *)

(** [n] calls of one method in a row, by one thread. *)
Fixpoint call_n (n : nat) (f : Sync.CriticalSection → outcome Sync.CriticalSection)
    (cs : Sync.CriticalSection) : outcome Sync.CriticalSection :=
  match n with
  | O => Returns cs
  | S n' => c ← f cs; call_n n' f c
  end.

(** The object as a build without [CS_TRACK_OWNER] has it: no [thread_]. *)
Definition erase_owner (cs : Sync.CriticalSection) : Sync.CriticalSection :=
  {| Sync.handle := Sync.handle cs; Sync.thread_ := None |}.

(** The value of the [thread_] member of a lock nobody holds. *)
Definition idle_thread_ (b : build) : option thread_id :=
  if CS_TRACK_OWNER b then Some 0 else None.

(** The native member is the one of the build's platform. *)
Definition native_of (b : build) (cs : Sync.CriticalSection) : Prop :=
  match target b, Sync.handle cs with
  | WIN32, Sync.crit_ _ => True
  | APPLE, Sync.mutex_ m => Pthread.m_type m = Pthread.PTHREAD_MUTEX_RECURSIVE
  | _, _ => False
  end.

(** A thread that calls [AtomicOps::Increment(&i)] [M] times. *)
Fixpoint inc_worker (b : build) (self : thread_id) (i : Z) (M : nat)
    : thread AtomicOps.process unit :=
  match M with
  | O => Ret tt
  | S M' => _ ← AtomicOps.Increment b self i; inc_worker b self i M'
  end.

(** [N] such threads, started on the process [ps]. *)
Definition inc_init (b : build) (N M : nat) (i : Z) (ps : AtomicOps.process)
    : machine AtomicOps.process unit :=
  (map (λ j, inc_worker b (Counter.tid j) i M) (seq 0 N), ps).

Section Increment_invariant.
Import Sync AtomicOps.
Context (b : build) (N M : nat) (i : Z) (ps0 : process).

(** Where a thread of [inc_init] stands: between two calls with [k] calls to
    go, or inside a call on the lock-based path, with [k] calls to follow:
    after [StaticCrit], after the guard's constructor, after the read, after
    the write. *)
Inductive ipc :=
| IIdle (k : nat)
| ICreated (k : nat)
| IEntered (k : nat)
| ILoaded (v : Z) (k : nat)
| IStored (r : Z) (k : nat).

Definition icode (self : thread_id) (p : ipc) : thread process unit :=
  match p with
  | IIdle k => inc_worker b self i k
  | ICreated k =>
      _ ← (_ ← atomic (SafeLock_ctor b self);
           v ← atomic (load i);
           r ← atomic (store_int i (v + 1));
           _ ← atomic (SafeLock_dtor b self);
           mret r);
      inc_worker b self i k
  | IEntered k =>
      _ ← (v ← atomic (load i);
           r ← atomic (store_int i (v + 1));
           _ ← atomic (SafeLock_dtor b self);
           mret r);
      inc_worker b self i k
  | ILoaded v k =>
      _ ← (r ← atomic (store_int i (v + 1));
           _ ← atomic (SafeLock_dtor b self);
           mret r);
      inc_worker b self i k
  | IStored r k =>
      _ ← (_ ← atomic (SafeLock_dtor b self); mret r);
      inc_worker b self i k
  end.

(** The thread holds the static lock. *)
Definition iinside (p : ipc) : bool :=
  match p with
  | IEntered _ | ILoaded _ _ | IStored _ _ => true
  | _ => false
  end.

(** The thread has evaluated [StaticCrit()]. *)
Definition icreated (p : ipc) : bool :=
  match p with
  | IIdle _ => false
  | _ => true
  end.

(** Writes of the location still to come. *)
Definition itodo (p : ipc) : nat :=
  match p with
  | IIdle k => k
  | ICreated k | IEntered k | ILoaded _ k => S k
  | IStored _ k => k
  end.

(** Steps still to come, at [w] steps a call. *)
Definition isteps (w : nat) (p : ipc) : nat :=
  match p with
  | IIdle k => w * k
  | ICreated k => w * k + 4
  | IEntered k => w * k + 3
  | ILoaded _ k => w * k + 2
  | IStored _ k => w * k + 1
  end.

Definition steps_per_call : nat :=
  match target b with
  | WIN32 => 1
  | APPLE => 5
  end.

(** The owner of the static lock, free while it has not been created. *)
Definition static_owner (ps : process) : ownership :=
  match crit ps with
  | None => Free
  | Some cs => owner_of cs
  end.

Definition ilock_ok (pcs : list ipc) (o : ownership) : Prop :=
  match o with
  | Free => ∀ j p, pcs !! j = Some p → iinside p = false
  | Owned t n =>
      n = 1%positive ∧
      ∃ j p, pcs !! j = Some p ∧ iinside p = true ∧ t = Counter.tid j ∧
             ∀ j' q, pcs !! j' = Some q → iinside q = true → j' = j
  end.

(** The invariant of the machine of [inc_init] after [n] steps. *)
Definition IInv (n : nat) (m : machine process unit) : Prop :=
  ∃ (pcs : list ipc) (c : Z),
    length m.1 = length pcs ∧
    (∀ j p, pcs !! j = Some p → m.1 !! j = Some (icode (Counter.tid j) p)) ∧
    heap m.2 = <[i:=c]> (heap ps0) ∧
    0 ≤ c ∧ c + Z.of_nat (sum_list_with itodo pcs) = Z.of_nat (N * M) ∧
    (n + sum_list_with (isteps steps_per_call) pcs = steps_per_call * (N * M))%nat ∧
    (∀ cs, crit m.2 = Some cs → recursive cs) ∧
    (∀ j p, pcs !! j = Some p → icreated p = true →
            target b = APPLE ∧ is_Some (crit m.2)) ∧
    ilock_ok pcs (static_owner m.2) ∧
    (∀ j v k, pcs !! j = Some (ILoaded v k) → v = c).

End Increment_invariant.

#[global] Instance ipc_eq_dec : EqDecision ipc.
Proof. solve_decision. Defined.

(** Threads that each call [AtomicOps::SafeSet(x, w)] once, for the values
    [ws], on the process [ps]. *)
Definition set_init (b : build) (x : Z) (ws : list Z) (ps : AtomicOps.process)
    : machine AtomicOps.process Z :=
  (AtomicOps.SafeSet b x <$> ws, ps).

(** A thread of [set_init]: its call is still to come, or has returned. *)
Inductive set_state :=
| Pending (w : Z)
| Finished (r : Z).

Definition set_code (b : build) (x : Z) (st : set_state) : thread AtomicOps.process Z :=
  match st with
  | Pending w => AtomicOps.SafeSet b x w
  | Finished r => Ret r
  end.

(** The value the thread holds: the one it will store, or the one it got. *)
Definition set_value (st : set_state) : Z :=
  match st with
  | Pending w => w
  | Finished r => r
  end.

Definition set_pending (st : set_state) : nat :=
  match st with
  | Pending _ => 1
  | Finished _ => 0
  end.

(** The invariant of the machine of [set_init] after [n] steps: the value at
    [x] together with the values the threads hold are the initial value and
    the values to set, in some order. *)
Definition SInv (b : build) (x v0 : Z) (ws : list Z) (ps0 : AtomicOps.process)
    (n : nat) (m : machine AtomicOps.process Z) : Prop :=
  ∃ (sts : list set_state) (cur : Z),
    m.1 = set_code b x <$> sts ∧
    m.2 = AtomicOps.set_heap (<[x:=cur]> (AtomicOps.heap ps0)) ps0 ∧
    cur :: (set_value <$> sts) ≡ₚ v0 :: ws ∧
    (n + sum_list_with set_pending sts = length ws)%nat.


(** * Facts about [Sync::CriticalSection] *)
Section CriticalSection_facts.
Import Win32 Pthread Sync.
Context (b : build).

Ltac unfold_cs :=
  unfold Lock, UnLock, TryLock, Enter, TryEnter, Leave, CurrentThreadIsOwner,
    new_CriticalSection, with_owner, state_of, owner_of, recursive, TRACK_OWNER,
    CS_TRACK_OWNER, set_thread_, set_handle,
    EnterCriticalSection, TryEnterCriticalSection, LeaveCriticalSection,
    InitializeCriticalSection, pthread_mutex_lock, pthread_mutex_trylock,
    pthread_mutex_unlock, pthread_mutex_init, pthread_mutexattr_settype,
    pthread_mutexattr_init, pthread_equal, FALSE, TRUE, EBUSY, EPERM,
    mret, outcome_ret, mbind, outcome_mbind, outcome_bind in *.

Ltac crush_cs :=
  unfold_cs; simpl in *;
  repeat match goal with
         | |- context [_DEBUG ?x] => destruct (_DEBUG x)
         | |- context [target ?x] => destruct (target x)
         | H : m_type _ = _ |- _ => simpl in H; subst
         | |- context [(?t =? ?u)%Z] => destruct (Z.eqb_spec t u); subst
         | |- context [(?t =? ?u)%positive] => destruct (Pos.eqb_spec t u); subst
         | _ => progress (simpl in *)
         end;
  try congruence; try reflexivity.

Lemma owner_of_TRACK_OWNER v cs :
  owner_of (TRACK_OWNER b (set_thread_ v) cs) = owner_of cs.
Proof. unfold_cs. destruct (_DEBUG b); reflexivity. Qed.

Lemma owner_of_with_owner o cs : owner_of (with_owner o cs) = o.
Proof. destruct cs as [[c|m] th]; reflexivity. Qed.

Lemma recursive_with_owner o cs : recursive cs → recursive (with_owner o cs).
Proof. destruct cs as [[c|m] th]; auto. Qed.

Lemma recursive_TRACK_OWNER v cs :
  recursive cs → recursive (TRACK_OWNER b (set_thread_ v) cs).
Proof. unfold_cs. destruct (_DEBUG b); auto. Qed.

Lemma recursive_new : recursive (new_CriticalSection b).
Proof. crush_cs; auto. Qed.

Lemma owner_of_new : owner_of (new_CriticalSection b) = Free.
Proof. crush_cs. Qed.

(** [Enter] on an object whose mutex is recursive, by the owner of its lock. *)
Lemma Enter_spec self cs :
  recursive cs →
  Enter b self cs =
    match owner_of cs with
    | Free => Returns (TRACK_OWNER b (set_thread_ self) (with_owner (Owned self 1) cs))
    | Owned t n =>
        if t =? self
        then Returns (TRACK_OWNER b (set_thread_ self) (with_owner (Owned t (Pos.succ n)) cs))
        else Blocks
    end.
Proof.
  destruct cs as [[[o]|[ty o]] th]; intros Hrec; destruct o as [|t n]; crush_cs.
Qed.

Lemma TryEnter_spec self cs :
  recursive cs →
  TryEnter b self cs =
    match owner_of cs with
    | Free => (true, TRACK_OWNER b (set_thread_ self) (with_owner (Owned self 1) cs))
    | Owned t n =>
        if t =? self
        then (true, TRACK_OWNER b (set_thread_ self) (with_owner (Owned t (Pos.succ n)) cs))
        else (false, cs)
    end.
Proof.
  destruct cs as [[[o]|[ty o]] th]; intros Hrec; destruct o as [|t n]; crush_cs.
Qed.

Lemma Leave_owner self n cs :
  owner_of cs = Owned self n →
  Leave b self cs =
    Returns (with_owner (if (n =? 1)%positive then Free else Owned self (Pos.pred n))
               (TRACK_OWNER b (set_thread_ 0) cs)).
Proof.
  destruct cs as [[[o]|[ty o]] th]; intros Ho; unfold owner_of in Ho; simpl in Ho;
    subst o; crush_cs.
Qed.

(** Whatever the caller, a [Leave] that returns keeps the mutex recursive. *)
Lemma Leave_recursive self cs cs' :
  recursive cs → Leave b self cs = Returns cs' → recursive cs'.
Proof.
  destruct cs as [[[o]|[ty o]] th]; intros Hrec; destruct o as [|t n]; crush_cs;
    intros; simplify_eq; simpl; auto.
Qed.

(** A [Leave] of a free lock, where it returns at all, leaves it free. *)
Lemma Leave_Free self cs cs' :
  owner_of cs = Free → Leave b self cs = Returns cs' → owner_of cs' = Free.
Proof.
  destruct cs as [[[o]|[ty o]] th]; intros Ho; unfold owner_of in Ho; simpl in Ho;
    subst o; crush_cs; destruct ty; intros; simplify_eq; done.
Qed.

Lemma reachable_recursive cs : reachable b cs → recursive cs.
Proof.
  induction 1 as [|self cs cs' _ IH HE|self cs _ IH|self cs cs' _ IH HL].
  - apply recursive_new.
  - rewrite Enter_spec in HE by done.
    destruct (owner_of cs) as [|t n]; [|destruct (t =? self)]; simplify_eq;
      auto using recursive_TRACK_OWNER, recursive_with_owner.
  - rewrite TryEnter_spec by done.
    destruct (owner_of cs) as [|t n]; [|destruct (t =? self)]; simpl;
      auto using recursive_TRACK_OWNER, recursive_with_owner.
  - eauto using Leave_recursive.
Qed.

Lemma state_of_Unlocked cs : state_of cs = Unlocked ↔ owner_of cs = Free.
Proof. unfold state_of. destruct (owner_of cs); split; congruence. Qed.

Lemma state_of_LockedByT cs t k :
  state_of cs = LockedByT t k ↔ ∃ n, owner_of cs = Owned t n ∧ k = Pos.to_nat n.
Proof.
  unfold state_of. destruct (owner_of cs) as [|t' n]; split.
  - discriminate.
  - intros (? & ? & _); discriminate.
  - intros [= -> <-]; eauto.
  - intros (n' & [= -> ->] & ->); reflexivity.
Qed.

End CriticalSection_facts.

Section CriticalSection_transitions.
Import Sync.
Context (b : build) (self : thread_id).

Lemma Enter_Unlocked cs :
  recursive cs → state_of cs = Unlocked →
  ∃ cs', Enter b self cs = Returns cs' ∧ state_of cs' = LockedByT self 1 ∧ recursive cs'.
Proof.
  intros Hrec Hst%state_of_Unlocked. rewrite Enter_spec, Hst by done.
  eexists; split; [reflexivity|]. split.
  - unfold state_of. by rewrite owner_of_TRACK_OWNER, owner_of_with_owner.
  - auto using recursive_TRACK_OWNER, recursive_with_owner.
Qed.

Lemma Enter_LockedBySelf cs n :
  recursive cs → state_of cs = LockedByT self n →
  ∃ cs', Enter b self cs = Returns cs' ∧ state_of cs' = LockedByT self (n + 1) ∧
         recursive cs'.
Proof.
  intros Hrec (k & Hst & ->)%state_of_LockedByT.
  rewrite Enter_spec, Hst, Z.eqb_refl by done.
  eexists; split; [reflexivity|]. split.
  - unfold state_of. rewrite owner_of_TRACK_OWNER, owner_of_with_owner.
    f_equal. lia.
  - auto using recursive_TRACK_OWNER, recursive_with_owner.
Qed.

Lemma Enter_LockedByOther cs other n :
  recursive cs → state_of cs = LockedByT other n → other ≠ self →
  Enter b self cs = Blocks.
Proof.
  intros Hrec (k & Hst & ->)%state_of_LockedByT Hne.
  rewrite Enter_spec, Hst by done.
  by destruct (Z.eqb_spec other self).
Qed.

Lemma Leave_LockedBySelf cs n :
  state_of cs = LockedByT self n →
  ∃ cs', Leave b self cs = Returns cs' ∧
         state_of cs' = (if decide (n = 1%nat) then Unlocked else LockedByT self (n - 1)) ∧
         (recursive cs → recursive cs').
Proof.
  intros (k & Hst & ->)%state_of_LockedByT.
  rewrite (Leave_owner _ _ _ _ Hst).
  eexists; split; [reflexivity|]. split.
  - unfold state_of. rewrite owner_of_with_owner.
    destruct (Pos.eqb_spec k 1) as [->|Hk].
    + reflexivity.
    + rewrite decide_False by lia. f_equal. lia.
  - auto using recursive_TRACK_OWNER, recursive_with_owner.
Qed.

End CriticalSection_transitions.

(** C5.  The lock follows the recursive state machine over the states
    [Unlocked] and [LockedByT thread count].  For every object [cs] a program
    can hold and every calling thread [self]: a new lock is [Unlocked];
    [Enter] from [Unlocked] returns with [LockedByT self 1]; [Enter] by the
    holder returns with the count one higher; [Enter] while another thread
    holds the lock blocks; [Leave] by the holder with a count above 1 lowers
    the count by one, and with count 1 unlocks.  So a thread that enters a
    free lock twice is not blocked, the lock is still held after one [Leave]
    and is [Unlocked] after the second. *)
Theorem CriticalSection_recursive_state_machine
    (b : build) (self : thread_id) (cs : Sync.CriticalSection) :
  Sync.reachable b cs →
  Sync.state_of (Sync.new_CriticalSection b) = Sync.Unlocked ∧
  (Sync.state_of cs = Sync.Unlocked →
     ∃ cs', Sync.Enter b self cs = Returns cs' ∧
            Sync.state_of cs' = Sync.LockedByT self 1) ∧
  (∀ n, Sync.state_of cs = Sync.LockedByT self n →
     ∃ cs', Sync.Enter b self cs = Returns cs' ∧
            Sync.state_of cs' = Sync.LockedByT self (n + 1)) ∧
  (∀ other n, Sync.state_of cs = Sync.LockedByT other n → other ≠ self →
     Sync.Enter b self cs = Blocks) ∧
  (∀ n, Sync.state_of cs = Sync.LockedByT self n → (1 < n)%nat →
     ∃ cs', Sync.Leave b self cs = Returns cs' ∧
            Sync.state_of cs' = Sync.LockedByT self (n - 1)) ∧
  (Sync.state_of cs = Sync.LockedByT self 1 →
     ∃ cs', Sync.Leave b self cs = Returns cs' ∧ Sync.state_of cs' = Sync.Unlocked) ∧
  (Sync.state_of cs = Sync.Unlocked →
     ∃ c1 c2 c3 c4,
       Sync.Enter b self cs = Returns c1 ∧
       Sync.Enter b self c1 = Returns c2 ∧ Sync.state_of c2 = Sync.LockedByT self 2 ∧
       Sync.Leave b self c2 = Returns c3 ∧ Sync.state_of c3 = Sync.LockedByT self 1 ∧
       Sync.Leave b self c3 = Returns c4 ∧ Sync.state_of c4 = Sync.Unlocked).
Proof.
  intros Hrec%reachable_recursive. repeat split.
  - apply state_of_Unlocked, owner_of_new.
  - intros Hst. destruct (Enter_Unlocked b self cs Hrec Hst) as (cs' & ? & ? & _); eauto.
  - intros n Hst.
    destruct (Enter_LockedBySelf b self cs n Hrec Hst) as (cs' & ? & ? & _); eauto.
  - intros other n Hst Hne. eauto using Enter_LockedByOther.
  - intros n Hst Hn.
    destruct (Leave_LockedBySelf b self cs n Hst) as (cs' & ? & Hst' & _).
    rewrite decide_False in Hst' by lia. eauto.
  - intros Hst.
    destruct (Leave_LockedBySelf b self cs 1 Hst) as (cs' & ? & Hst' & _). eauto.
  - intros Hst.
    destruct (Enter_Unlocked b self cs Hrec Hst) as (c1 & H1 & S1 & R1).
    destruct (Enter_LockedBySelf b self c1 1 R1 S1) as (c2 & H2 & S2 & R2).
    destruct (Leave_LockedBySelf b self c2 2 S2) as (c3 & H3 & S3 & R3).
    destruct (Leave_LockedBySelf b self c3 1 S3) as (c4 & H4 & S4 & R4).
    exists c1, c2, c3, c4. auto 10.
Qed.

(** The theorem at the lock thread 1 has entered once, in an [__APPLE__]
    debug build: thread 1 enters again (count 2), leaves (count 0: unlocked),
    and thread 2 blocks. *)
Lemma CriticalSection_recursive_state_machine_witness :
  ∃ cs,
    Sync.Enter (Build APPLE true) 1 (Sync.new_CriticalSection (Build APPLE true))
      = Returns cs ∧
    Sync.reachable (Build APPLE true) cs ∧
    (∃ cs', Sync.Enter (Build APPLE true) 1 cs = Returns cs' ∧
            Sync.state_of cs' = Sync.LockedByT 1 2) ∧
    (∃ cs', Sync.Leave (Build APPLE true) 1 cs = Returns cs' ∧
            Sync.state_of cs' = Sync.Unlocked) ∧
    Sync.Enter (Build APPLE true) 2 cs = Blocks.
Proof.
  eexists. split; [reflexivity|].
  assert (Hr : Sync.reachable (Build APPLE true)
                 (Sync.mkCriticalSection
                    (Sync.mutex_ (Pthread.mkMutex Pthread.PTHREAD_MUTEX_RECURSIVE (Owned 1 1)))
                    (Some 1))).
  { eapply Sync.reach_Enter with (self := 1); [apply Sync.reach_new|reflexivity]. }
  split; [exact Hr|].
  destruct (CriticalSection_recursive_state_machine (Build APPLE true) 1 _ Hr)
    as (_ & _ & H2 & _ & _ & H5 & _).
  destruct (CriticalSection_recursive_state_machine (Build APPLE true) 2 _ Hr)
    as (_ & _ & _ & H3 & _).
  split; [exact (H2 1%nat eq_refl)|].
  split; [exact (H5 eq_refl)|].
  apply (H3 1 1%nat eq_refl). lia.
Defined.

(** C7.  [TryEnter] returns true exactly when the lock was free or already
    held by the caller; it then holds the lock for the caller, at count 1 from
    a free lock and one higher when the caller held it (and records the caller
    as owner where owners are tracked).  When another thread holds the lock it
    returns false and leaves the whole object as it was.  It always returns:
    [TryEnter] is a total function into results, with no blocked outcome. *)
Theorem TryEnter_iff_free_or_own
    (b : build) (self : thread_id) (cs : Sync.CriticalSection) :
  Sync.reachable b cs →
  ((Sync.TryEnter b self cs).1 = true ↔
     (Sync.state_of cs = Sync.Unlocked ∨ ∃ n, Sync.state_of cs = Sync.LockedByT self n)) ∧
  (Sync.state_of cs = Sync.Unlocked →
     (Sync.TryEnter b self cs).1 = true ∧
     Sync.state_of (Sync.TryEnter b self cs).2 = Sync.LockedByT self 1) ∧
  (∀ n, Sync.state_of cs = Sync.LockedByT self n →
     (Sync.TryEnter b self cs).1 = true ∧
     Sync.state_of (Sync.TryEnter b self cs).2 = Sync.LockedByT self (n + 1)) ∧
  (∀ other n, Sync.state_of cs = Sync.LockedByT other n → other ≠ self →
     Sync.TryEnter b self cs = (false, cs)) ∧
  ((Sync.TryEnter b self cs).1 = true → _DEBUG b = true →
     Sync.thread_ (Sync.TryEnter b self cs).2 = Some self).
Proof.
  intros Hrec%reachable_recursive.
  assert (Hnew : ∀ v t n,
    Sync.state_of (TRACK_OWNER b (Sync.set_thread_ v) (with_owner (Owned t n) cs))
    = Sync.LockedByT t (Pos.to_nat n)).
  { intros. unfold Sync.state_of.
    by rewrite owner_of_TRACK_OWNER, owner_of_with_owner. }
  assert (Hdbg : ∀ o, _DEBUG b = true →
    Sync.thread_ (TRACK_OWNER b (Sync.set_thread_ self) (with_owner o cs)) = Some self).
  { intros o Hd. unfold TRACK_OWNER, CS_TRACK_OWNER. by rewrite Hd. }
  assert (Hst : Sync.state_of cs =
    match Sync.owner_of cs with
    | Free => Sync.Unlocked
    | Owned t n => Sync.LockedByT t (Pos.to_nat n)
    end) by reflexivity.
  rewrite (TryEnter_spec b self cs Hrec), Hst.
  destruct (Sync.owner_of cs) as [|t n]; [|destruct (Z.eqb_spec t self) as [->|Hne]];
    simpl; rewrite ?Hnew.
  - split_and!; try done; eauto.
    split; auto.
  - split_and!; try done; eauto.
    + split; eauto.
    + intros k [= <-]. split; [done|]. f_equal. lia.
    + intros other k [= -> _] ?. done.
  - split_and!; try done.
    + split; [done|]. intros [?|[k ?]]; congruence.
    + intros k [= ? _]. done.
Qed.

(** The theorem at the lock thread 1 holds, in a [WIN32] debug build: thread 1
    succeeds and holds the lock twice, thread 2 fails and changes nothing. *)
Lemma TryEnter_iff_free_or_own_witness :
  ∃ cs,
    Sync.Enter (Build WIN32 true) 1 (Sync.new_CriticalSection (Build WIN32 true))
      = Returns cs ∧
    Sync.reachable (Build WIN32 true) cs ∧
    ((Sync.TryEnter (Build WIN32 true) 1 cs).1 = true ∧
     Sync.state_of (Sync.TryEnter (Build WIN32 true) 1 cs).2 = Sync.LockedByT 1 2) ∧
    Sync.TryEnter (Build WIN32 true) 2 cs = (false, cs).
Proof.
  eexists. split; [reflexivity|].
  assert (Hr : Sync.reachable (Build WIN32 true)
                 (Sync.mkCriticalSection
                    (Sync.crit_ (Win32.mkCRITICAL_SECTION (Owned 1 1))) (Some 1))).
  { eapply Sync.reach_Enter with (self := 1); [apply Sync.reach_new|reflexivity]. }
  split; [exact Hr|].
  destruct (TryEnter_iff_free_or_own (Build WIN32 true) 1 _ Hr) as (_ & _ & H2 & _).
  destruct (TryEnter_iff_free_or_own (Build WIN32 true) 2 _ Hr) as (_ & _ & _ & H3 & _).
  split; [exact (H2 1%nat eq_refl)|].
  apply (H3 1 1%nat eq_refl). lia.
Defined.

(** In a debug build the tracked owner is never a wrong thread: it is 0, or
    the thread that holds the lock. *)
Lemma tracked_owner_sound (b : build) (cs : Sync.CriticalSection) :
  _DEBUG b = true → Sync.reachable b cs →
  Sync.thread_ cs = Some 0 ∨
  ∃ t n, Sync.owner_of cs = Owned t n ∧ Sync.thread_ cs = Some t.
Proof.
  intros Hd Hreach.
  induction Hreach as [|self cs cs' Hr IH HE|self cs Hr IH|self cs cs' Hr IH HL].
  - left. unfold Sync.new_CriticalSection, TRACK_OWNER, CS_TRACK_OWNER.
    by rewrite Hd.
  - right. apply reachable_recursive in Hr. rewrite Enter_spec in HE by done.
    unfold TRACK_OWNER, CS_TRACK_OWNER in HE. rewrite Hd in HE.
    destruct (Sync.owner_of cs) as [|t n]; [|destruct (Z.eqb_spec t self) as [->|]];
      simplify_eq; do 2 eexists; (split; [apply (owner_of_with_owner _ cs)|reflexivity]).
  - apply reachable_recursive in Hr. rewrite TryEnter_spec by done.
    unfold TRACK_OWNER, CS_TRACK_OWNER. rewrite Hd.
    destruct (Sync.owner_of cs) as [|t n] eqn:Ho;
      [|destruct (Z.eqb_spec t self) as [->|]]; simpl.
    + right. do 2 eexists; (split; [apply (owner_of_with_owner _ cs)|reflexivity]).
    + right. do 2 eexists; (split; [apply (owner_of_with_owner _ cs)|reflexivity]).
    + rewrite Ho. exact IH.
  - left. unfold Sync.Leave, TRACK_OWNER, CS_TRACK_OWNER in HL. rewrite Hd in HL.
    destruct cs as [[c|m] th]; simpl in HL.
    + destruct (Win32.LeaveCriticalSection self c); simpl in HL; [|done..].
      by injection HL as <-.
    + destruct (Pthread.pthread_mutex_unlock self m); simpl in HL; [|done..].
      by injection HL as <-.
Qed.

(** X1.  In a build that tracks the owner, a true answer of
    [CurrentThreadIsOwner] is right: the calling thread (whose identifier is
    not 0) holds the lock.  The converse fails on a nested hold, see C6. *)
Lemma CurrentThreadIsOwner_true_holds (b : build) (self : thread_id)
    (cs : Sync.CriticalSection) :
  _DEBUG b = true → Sync.reachable b cs → self ≠ 0 →
  Sync.CurrentThreadIsOwner self cs = Some true →
  ∃ n, Sync.state_of cs = Sync.LockedByT self n.
Proof.
  intros Hd Hr Hself Hcur.
  assert (Heq : ∀ o, Sync.thread_ cs = Some o → o = self).
  { intros o Ho. unfold Sync.CurrentThreadIsOwner in Hcur. rewrite Ho in Hcur.
    unfold Pthread.pthread_equal in Hcur.
    destruct (Sync.handle cs); injection Hcur as Hcur; by apply Z.eqb_eq. }
  destruct (tracked_owner_sound b cs Hd Hr) as [Hth|(t & n & Ho & Hth)].
  - by apply Heq in Hth.
  - apply Heq in Hth as ->. unfold Sync.state_of. rewrite Ho. eauto.
Qed.

(** C6 (the code departs from the specification).  In a debug build of either
    platform, thread 1 enters a new lock twice and leaves it once.  It still
    holds the lock, at count 1, but [Leave] has set the tracked owner to 0, and
    [CurrentThreadIsOwner] answers false to the thread that holds the lock. *)
Theorem tracked_owner_lost_by_inner_Leave (p : platform) :
  ∃ c1 c2 c3,
    Sync.Enter (Build p true) 1 (Sync.new_CriticalSection (Build p true)) = Returns c1 ∧
    Sync.Enter (Build p true) 1 c1 = Returns c2 ∧
    Sync.CurrentThreadIsOwner 1 c2 = Some true ∧
    Sync.Leave (Build p true) 1 c2 = Returns c3 ∧
    Sync.state_of c3 = Sync.LockedByT 1 1 ∧
    Sync.thread_ c3 = Some 0 ∧
    Sync.CurrentThreadIsOwner 1 c3 = Some false.
Proof. destruct p; do 3 eexists; repeat split. Qed.


(** * Facts about threads *)
Section thread_facts.
Context {St : Type}.

Lemma run_bind {A B : Type} (t : thread St A) (f : A → thread St B) (s : St) :
  run (t ≫= f) s = r ← run t s; run (f r.1) r.2.
Proof.
  revert s. induction t as [a|C act k IH]; intros s; simpl; [done|].
  destruct (act s) as [[c s']| |]; simpl; [apply IH|done..].
Qed.

Lemma run_atomic {B : Type} (act : St → outcome (B * St)) (s : St) :
  run (atomic act) s = act s.
Proof. simpl. by destruct (act s) as [[]| |]. Qed.

Lemma thread_step_atomic {B : Type} (act : St → outcome (B * St)) s t' s' :
  thread_step (atomic act) s t' s' ↔ ∃ r, act s = Returns (r, s') ∧ t' = Ret r.
Proof. reflexivity. Qed.

End thread_facts.

(** * Facts about [AtomicOps] *)
Section AtomicOps_facts.
Import Sync AtomicOps.

Lemma set_heap_same ps l v :
  heap ps !! l = Some v → set_heap (<[l:=v]> (heap ps)) ps = ps.
Proof. intros H. destruct ps as [h c]. unfold set_heap; simpl in *. by rewrite insert_id. Qed.

Lemma wrap32_representable z : representable z = true → wrap32 z = z.
Proof.
  unfold representable, wrap32, INT_MIN, INT_MAX. intros H.
  apply andb_true_iff in H as [H1%Z.leb_le H2%Z.leb_le].
  rewrite Z.mod_small; lia.
Qed.

Lemma wrap32_is_representable z : representable (wrap32 z) = true.
Proof.
  unfold representable, wrap32, INT_MIN, INT_MAX.
  pose proof (Z.mod_pos_bound (z - - 2 ^ 31) (2 ^ 32) ltac:(lia)).
  apply andb_true_iff; split; apply Z.leb_le; lia.
Qed.

Lemma wrap32_congruent z : (wrap32 z - z) mod 2 ^ 32 = 0.
Proof.
  unfold wrap32, INT_MIN.
  rewrite (Z.mod_eq (z - - 2 ^ 31) (2 ^ 32)) by lia.
  replace (z - - 2 ^ 31 - 2 ^ 32 * ((z - - 2 ^ 31) / 2 ^ 32) + - 2 ^ 31 - z)
    with ((- ((z - - 2 ^ 31) / 2 ^ 32)) * 2 ^ 32) by lia.
  apply Z.mod_mul. lia.
Qed.

(** [SafeGet] running alone reads the value and leaves the memory as it was. *)
Lemma SafeGet_alone (b : build) (nVal v : Z) (ps : process) :
  heap ps !! nVal = Some v → run (SafeGet b nVal) ps = Returns (v, ps).
Proof.
  intros H. unfold SafeGet. rewrite run_bind, run_atomic. unfold load. rewrite H. simpl.
  destruct (target b); rewrite run_atomic;
    unfold InterlockedExchange, __sync_lock_test_and_set; rewrite H;
    by rewrite set_heap_same.
Qed.

(** [SafeSet] is a single atomic step: an exchange. *)
Lemma SafeSet_step (b : build) (nVal nNewVal old : Z) (ps : process) :
  heap ps !! nVal = Some old →
  ∃ xchg,
    SafeSet b nVal nNewVal = atomic xchg ∧
    xchg ps = Returns (old, set_heap (<[nVal:=nNewVal]> (heap ps)) ps).
Proof.
  intros H. unfold SafeSet.
  destruct (target b); eexists; (split; [reflexivity|]);
    unfold InterlockedExchange, __sync_lock_test_and_set; by rewrite H.
Qed.

Lemma SafeSet_alone (b : build) (nVal nNewVal old : Z) (ps : process) :
  heap ps !! nVal = Some old →
  run (SafeSet b nVal nNewVal) ps
    = Returns (old, set_heap (<[nVal:=nNewVal]> (heap ps)) ps).
Proof.
  intros H. destruct (SafeSet_step b nVal nNewVal old ps H) as (xchg & -> & Hx).
  by rewrite run_atomic.
Qed.

(** The lock-based path of [Increment] or [Decrement], storing [z], the
    32-bit value of [f v]: from a state where the static lock is not held it
    returns [z], with [z] stored and the lock free again. *)
Lemma locked_update_runs (b : build) (self : thread_id) (i v z : Z)
    (f : Z → Z) (ps : process) :
  heap ps !! i = Some v → wrap32 (f v) = z → lock_free ps →
  ∃ ps',
    run (locked_update b self i f) ps = Returns (z, ps') ∧
    heap ps' = <[i:=z]> (heap ps) ∧ lock_free ps'.
Proof.
  intros Hv Hf Hfree.
  set (c0 := match crit ps with Some cs => cs | None => new_CriticalSection b end).
  assert (Hc0 : recursive c0 ∧ owner_of c0 = Free).
  { unfold lock_free in Hfree. subst c0. destruct (crit ps); [done|].
    split; [apply recursive_new|apply owner_of_new]. }
  destruct Hc0 as [Hrec Hown].
  set (c1 := TRACK_OWNER b (set_thread_ self) (with_owner (Owned self 1) c0)).
  set (c2 := with_owner Free (TRACK_OWNER b (set_thread_ 0) c1)).
  exists {| heap := <[i:=z]> (heap ps); crit := Some c2 |}.
  split; [|split; [done|]].
  - set (ps0 := match crit ps with
                | None => set_crit (new_CriticalSection b) ps
                | Some _ => ps
                end).
    assert (Hcrit : crit ps0 = Some c0).
    { subst ps0 c0. by destruct (crit ps) eqn:E. }
    assert (Hheap : heap ps0 = heap ps) by (subst ps0; by destruct (crit ps)).
    assert (HE : SafeLock_ctor b self ps0 = Returns (tt, set_crit c1 ps0)).
    { unfold SafeLock_ctor, on_crit, Lock.
      by rewrite Hcrit, (Enter_spec b self c0 Hrec), Hown. }
    assert (HL : ∀ h, SafeLock_dtor b self (set_heap h (set_crit c1 ps0))
                      = Returns (tt, set_crit c2 (set_heap h (set_crit c1 ps0)))).
    { intros h. unfold SafeLock_dtor, on_crit, UnLock. simpl.
      rewrite (Leave_owner b self 1 c1); [done|].
      subst c1. by rewrite owner_of_TRACK_OWNER, owner_of_with_owner. }
    simpl. fold ps0. rewrite HE. simpl.
    unfold load, store_int. simpl. rewrite Hheap, Hv. simpl.
    rewrite Hheap, Hv, Hf. simpl.
    by rewrite HL.
  - unfold lock_free; simpl. subst c2 c1. split.
    + auto using recursive_with_owner, recursive_TRACK_OWNER.
    + apply owner_of_with_owner.
Qed.

End AtomicOps_facts.

(** C1.  [SafeSet nVal nNewVal] stores [nNewVal] at the location and returns
    the value the location held immediately before.  It is one atomic
    exchange: its only step, taken from any state in which the location holds
    [old] (whatever other threads did before), returns [old] and stores
    [nNewVal]; a [SafeSet] that follows returns the value just written. *)
Theorem SafeSet_returns_previous
    (b : build) (nVal nNewVal old : Z) (ps : AtomicOps.process) :
  AtomicOps.heap ps !! nVal = Some old →
  run (AtomicOps.SafeSet b nVal nNewVal) ps
    = Returns (old, AtomicOps.set_heap (<[nVal:=nNewVal]> (AtomicOps.heap ps)) ps) ∧
  (∀ t' ps',
     thread_step (AtomicOps.SafeSet b nVal nNewVal) ps t' ps' ↔
     t' = Ret old ∧
     ps' = AtomicOps.set_heap (<[nVal:=nNewVal]> (AtomicOps.heap ps)) ps) ∧
  (∀ w,
     run (_ ← AtomicOps.SafeSet b nVal nNewVal; AtomicOps.SafeSet b nVal w) ps
     = Returns (nNewVal, AtomicOps.set_heap (<[nVal:=w]> (AtomicOps.heap ps)) ps)).
Proof.
  intros H. split_and!.
  - by apply SafeSet_alone.
  - intros t' ps'.
    destruct (SafeSet_step b nVal nNewVal old ps H) as (xchg & -> & Hx).
    rewrite thread_step_atomic, Hx. split.
    + by intros (r & [= <- <-] & ->).
    + intros [-> ->]. eauto.
  - intros w. rewrite run_bind, (SafeSet_alone b nVal nNewVal old ps H). simpl.
    rewrite (SafeSet_alone b nVal w nNewVal).
    + unfold AtomicOps.set_heap. simpl. by rewrite insert_insert_eq.
    + simpl. apply lookup_insert_eq.
Qed.

(** The theorem at location 16 holding 3, set to 7 in an [__APPLE__] build. *)
Lemma SafeSet_returns_previous_witness :
  run (AtomicOps.SafeSet (Build APPLE false) 16 7)
      (AtomicOps.mkProcess {[ 16 := 3 ]} None)
    = Returns (3, AtomicOps.mkProcess (<[16:=7]> {[ 16 := 3 ]}) None).
Proof.
  refine (proj1 (SafeSet_returns_previous (Build APPLE false) 16 7 3
                   (AtomicOps.mkProcess {[ 16 := 3 ]} None) _)).
  reflexivity.
Defined.

(** C3.  [Increment] on a location holding [v], whose successor is an [int],
    stores [v + 1] and returns [v + 1], on the interlocked path ([WIN32]) and
    on the lock-based path alike.  The static lock is not held when the call
    starts and is free again when it returns. *)
Theorem Increment_returns_successor
    (b : build) (self : thread_id) (i v : Z) (ps : AtomicOps.process) :
  AtomicOps.heap ps !! i = Some v →
  AtomicOps.INT_MIN ≤ v < AtomicOps.INT_MAX →
  lock_free ps →
  ∃ ps',
    run (AtomicOps.Increment b self i) ps = Returns (v + 1, ps') ∧
    AtomicOps.heap ps' = <[i:=v + 1]> (AtomicOps.heap ps) ∧
    lock_free ps'.
Proof.
  intros Hv Hrange Hfree.
  assert (Hrep : AtomicOps.representable (v + 1) = true).
  { unfold AtomicOps.representable, AtomicOps.INT_MIN, AtomicOps.INT_MAX in *.
    apply andb_true_iff; split; apply Z.leb_le; lia. }
  unfold AtomicOps.Increment. destruct (target b).
  - rewrite run_atomic. unfold AtomicOps.InterlockedIncrement.
    rewrite Hv, wrap32_representable by done. eauto.
  - apply (locked_update_runs b self i v (v + 1) (λ v, v + 1)); [done| |done].
    by apply wrap32_representable.
Qed.

(** The theorem at location 16 holding 41, on the lock-based path, in a
    process that has not created the lock yet. *)
Lemma Increment_returns_successor_witness :
  ∃ ps',
    run (AtomicOps.Increment (Build APPLE true) 1 16)
        (AtomicOps.mkProcess {[ 16 := 41 ]} None) = Returns (41 + 1, ps') ∧
    AtomicOps.heap ps' = <[16:=41 + 1]> {[ 16 := 41 ]} ∧
    lock_free ps'.
Proof.
  refine (Increment_returns_successor (Build APPLE true) 1 16 41
            (AtomicOps.mkProcess {[ 16 := 41 ]} None) _ _ _).
  - reflexivity.
  - unfold AtomicOps.INT_MIN, AtomicOps.INT_MAX. lia.
  - exact I.
Defined.

(** C4.  [Decrement] on a location holding [v], whose predecessor is an
    [int], stores [v - 1] and returns [v - 1], on the interlocked path
    ([WIN32]) and on the lock-based path alike. *)
Theorem Decrement_returns_predecessor
    (b : build) (self : thread_id) (i v : Z) (ps : AtomicOps.process) :
  AtomicOps.heap ps !! i = Some v →
  AtomicOps.INT_MIN < v ≤ AtomicOps.INT_MAX →
  lock_free ps →
  ∃ ps',
    run (AtomicOps.Decrement b self i) ps = Returns (v - 1, ps') ∧
    AtomicOps.heap ps' = <[i:=v - 1]> (AtomicOps.heap ps) ∧
    lock_free ps'.
Proof.
  intros Hv Hrange Hfree.
  assert (Hrep : AtomicOps.representable (v - 1) = true).
  { unfold AtomicOps.representable, AtomicOps.INT_MIN, AtomicOps.INT_MAX in *.
    apply andb_true_iff; split; apply Z.leb_le; lia. }
  unfold AtomicOps.Decrement. destruct (target b).
  - rewrite run_atomic. unfold AtomicOps.InterlockedDecrement.
    rewrite Hv, wrap32_representable by done. eauto.
  - apply (locked_update_runs b self i v (v - 1) (λ v, v - 1)); [done| |done].
    by apply wrap32_representable.
Qed.

(** The theorem at location 16 holding 1, on the interlocked path. *)
Lemma Decrement_returns_predecessor_witness :
  ∃ ps',
    run (AtomicOps.Decrement (Build WIN32 true) 1 16)
        (AtomicOps.mkProcess {[ 16 := 1 ]} None) = Returns (1 - 1, ps') ∧
    AtomicOps.heap ps' = <[16:=1 - 1]> {[ 16 := 1 ]} ∧
    lock_free ps'.
Proof.
  refine (Decrement_returns_predecessor (Build WIN32 true) 1 16 1
            (AtomicOps.mkProcess {[ 16 := 1 ]} None) _ _ _).
  - reflexivity.
  - unfold AtomicOps.INT_MIN, AtomicOps.INT_MAX. lia.
  - exact I.
Defined.

(** C2 (the code departs from the specification).  Running alone, [SafeGet] returns
    the value of the location and leaves it in place ([SafeGet_alone]).  But
    it is an exchange whose new value was read beforehand, and a write of
    another thread may come between the two.  Location 16 holds 0; thread 0
    calls [SafeGet], thread 1 calls [SafeSet] with 5.  [SafeGet] reads its
    argument (0); [SafeSet] stores 5 and returns 0; [SafeGet] exchanges: it
    returns 5 and stores 0.  The location held 5 before that step and holds 0
    after it: the read has changed the memory and undone the write. *)
Theorem SafeGet_undoes_concurrent_SafeSet (b : build) :
  ∃ t1,
    mstep ([AtomicOps.SafeGet b 16; AtomicOps.SafeSet b 16 5],
           AtomicOps.mkProcess {[ 16 := 0 ]} None)
          ([t1; AtomicOps.SafeSet b 16 5],
           AtomicOps.mkProcess {[ 16 := 0 ]} None) ∧
    mstep ([t1; AtomicOps.SafeSet b 16 5],
           AtomicOps.mkProcess {[ 16 := 0 ]} None)
          ([t1; Ret 0],
           AtomicOps.mkProcess {[ 16 := 5 ]} None) ∧
    mstep ([t1; Ret 0],
           AtomicOps.mkProcess {[ 16 := 5 ]} None)
          ([Ret 5; Ret 0],
           AtomicOps.mkProcess {[ 16 := 0 ]} None).
Proof.
  exists (match target b with
          | WIN32 => atomic (AtomicOps.InterlockedExchange 16 0)
          | APPLE => atomic (AtomicOps.__sync_lock_test_and_set 16 0)
          end).
  split_and!.
  - refine (mstep_thread 0 [_; _] _ _ _ _ eq_refl _).
    exists 0. split; reflexivity.
  - refine (mstep_thread 1 [_; _] _ _ _ _ eq_refl _).
    unfold AtomicOps.SafeSet. destruct (target b); exists 0; split; reflexivity.
  - refine (mstep_thread 0 [_; _] _ _ _ _ eq_refl _).
    destruct (target b); exists 5; split; reflexivity.
Qed.

(** The interlocked path wraps around: for every [int] [v] the result of
    [InterlockedIncrement] is the [int] congruent to [v + 1] modulo 2^32. *)
Lemma InterlockedIncrement_wraps (i v : Z) (ps : AtomicOps.process) :
  AtomicOps.heap ps !! i = Some v →
  ∃ r,
    AtomicOps.InterlockedIncrement i ps
      = Returns (r, AtomicOps.set_heap (<[i:=r]> (AtomicOps.heap ps)) ps) ∧
    AtomicOps.representable r = true ∧ (r - (v + 1)) mod 2 ^ 32 = 0.
Proof.
  intros H. exists (AtomicOps.wrap32 (v + 1)).
  unfold AtomicOps.InterlockedIncrement. rewrite H.
  auto using wrap32_is_representable, wrap32_congruent.
Qed.

Lemma InterlockedDecrement_wraps (i v : Z) (ps : AtomicOps.process) :
  AtomicOps.heap ps !! i = Some v →
  ∃ r,
    AtomicOps.InterlockedDecrement i ps
      = Returns (r, AtomicOps.set_heap (<[i:=r]> (AtomicOps.heap ps)) ps) ∧
    AtomicOps.representable r = true ∧ (r - (v - 1)) mod 2 ^ 32 = 0.
Proof.
  intros H. exists (AtomicOps.wrap32 (v - 1)).
  unfold AtomicOps.InterlockedDecrement. rewrite H.
  auto using wrap32_is_representable, wrap32_congruent.
Qed.

(** C10.  [Increment] and [Decrement] compute modulo 2^32.  On a location
    holding the [int] [v], with the static lock not held, [Increment] stores
    and returns the [int] congruent to [v + 1] modulo 2^32, which is [v + 1]
    below the largest [int] and the smallest [int] at the largest; [Decrement]
    stores and returns the [int] congruent to [v - 1], which is [v - 1] above
    the smallest [int] and the largest [int] at the smallest.  The lock-based
    path ([__APPLE__]) and the interlocked path ([WIN32]) return the same
    value and leave the same memory. *)
Theorem Increment_Decrement_wrap_modulo_2_32
    (d : bool) (self : thread_id) (i v : Z) (ps : AtomicOps.process) :
  AtomicOps.heap ps !! i = Some v →
  AtomicOps.representable v = true →
  lock_free ps →
  (∃ pa pw,
     run (AtomicOps.Increment (Build APPLE d) self i) ps
       = Returns (AtomicOps.wrap32 (v + 1), pa) ∧
     run (AtomicOps.Increment (Build WIN32 d) self i) ps
       = Returns (AtomicOps.wrap32 (v + 1), pw) ∧
     AtomicOps.heap pa = <[i:=AtomicOps.wrap32 (v + 1)]> (AtomicOps.heap ps) ∧
     AtomicOps.heap pw = AtomicOps.heap pa ∧
     lock_free pa ∧ lock_free pw) ∧
  (∃ pa pw,
     run (AtomicOps.Decrement (Build APPLE d) self i) ps
       = Returns (AtomicOps.wrap32 (v - 1), pa) ∧
     run (AtomicOps.Decrement (Build WIN32 d) self i) ps
       = Returns (AtomicOps.wrap32 (v - 1), pw) ∧
     AtomicOps.heap pa = <[i:=AtomicOps.wrap32 (v - 1)]> (AtomicOps.heap ps) ∧
     AtomicOps.heap pw = AtomicOps.heap pa ∧
     lock_free pa ∧ lock_free pw) ∧
  (AtomicOps.representable (AtomicOps.wrap32 (v + 1)) = true ∧
   (AtomicOps.wrap32 (v + 1) - (v + 1)) mod 2 ^ 32 = 0 ∧
   (v < AtomicOps.INT_MAX → AtomicOps.wrap32 (v + 1) = v + 1) ∧
   (v = AtomicOps.INT_MAX → AtomicOps.wrap32 (v + 1) = AtomicOps.INT_MIN)) ∧
  (AtomicOps.representable (AtomicOps.wrap32 (v - 1)) = true ∧
   (AtomicOps.wrap32 (v - 1) - (v - 1)) mod 2 ^ 32 = 0 ∧
   (AtomicOps.INT_MIN < v → AtomicOps.wrap32 (v - 1) = v - 1) ∧
   (v = AtomicOps.INT_MIN → AtomicOps.wrap32 (v - 1) = AtomicOps.INT_MAX)).
Proof.
  intros Hv Hrep Hfree.
  assert (Hw : ∀ z, lock_free (AtomicOps.set_heap z ps)) by (intros z; exact Hfree).
  split_and!.
  - destruct (locked_update_runs (Build APPLE d) self i v _ (λ v, v + 1) ps
                Hv eq_refl Hfree) as (pa & Ha & Hha & Hfa).
    exists pa, (AtomicOps.set_heap (<[i:=AtomicOps.wrap32 (v + 1)]> (AtomicOps.heap ps)) ps).
    split_and!; [exact Ha| |exact Hha|by rewrite Hha|exact Hfa|apply Hw].
    unfold AtomicOps.Increment. simpl. unfold AtomicOps.InterlockedIncrement.
    by rewrite Hv.
  - destruct (locked_update_runs (Build APPLE d) self i v _ (λ v, v - 1) ps
                Hv eq_refl Hfree) as (pa & Ha & Hha & Hfa).
    exists pa, (AtomicOps.set_heap (<[i:=AtomicOps.wrap32 (v - 1)]> (AtomicOps.heap ps)) ps).
    split_and!; [exact Ha| |exact Hha|by rewrite Hha|exact Hfa|apply Hw].
    unfold AtomicOps.Decrement. simpl. unfold AtomicOps.InterlockedDecrement.
    by rewrite Hv.
  - apply wrap32_is_representable.
  - apply wrap32_congruent.
  - intros Hlt. apply wrap32_representable.
    unfold AtomicOps.representable, AtomicOps.INT_MIN, AtomicOps.INT_MAX in *.
    apply andb_true_iff in Hrep as [H1%Z.leb_le H2%Z.leb_le].
    apply andb_true_iff; split; apply Z.leb_le; lia.
  - intros ->. reflexivity.
  - apply wrap32_is_representable.
  - apply wrap32_congruent.
  - intros Hlt. apply wrap32_representable.
    unfold AtomicOps.representable, AtomicOps.INT_MIN, AtomicOps.INT_MAX in *.
    apply andb_true_iff in Hrep as [H1%Z.leb_le H2%Z.leb_le].
    apply andb_true_iff; split; apply Z.leb_le; lia.
  - intros ->. reflexivity.
Qed.

(** The theorem at location 16 holding the largest [int], in a process that
    has not created the lock yet: both paths of [Increment] return the
    smallest [int] and leave it stored. *)
Lemma Increment_Decrement_wrap_modulo_2_32_witness :
  ∃ pa pw,
    run (AtomicOps.Increment (Build APPLE false) 1 16)
        (AtomicOps.mkProcess {[ 16 := 2147483647 ]} None)
      = Returns (-2147483648, pa) ∧
    run (AtomicOps.Increment (Build WIN32 false) 1 16)
        (AtomicOps.mkProcess {[ 16 := 2147483647 ]} None)
      = Returns (-2147483648, pw) ∧
    AtomicOps.heap pa = <[16:=-2147483648]> {[ 16 := 2147483647 ]} ∧
    AtomicOps.heap pw = AtomicOps.heap pa.
Proof.
  assert (Hv : AtomicOps.heap (AtomicOps.mkProcess {[ 16 := 2147483647 ]} None) !! 16
               = Some 2147483647) by reflexivity.
  destruct (Increment_Decrement_wrap_modulo_2_32 false 1 16 2147483647
              (AtomicOps.mkProcess {[ 16 := 2147483647 ]} None) Hv eq_refl I)
    as ((pa & pw & Ha & Hw & Hha & Hhw & _) & _).
  exists pa, pw. split_and!; [exact Ha|exact Hw|exact Hha|exact Hhw].
Defined.


(** * The shared counter under the lock *)
Section Counter_proof.
Import Sync Counter.
Context (b : build) (N M : nat).

Lemma tid_inj i j : tid i = tid j → i = j.
Proof. unfold tid. lia. Qed.

Lemma sum_list_with_insert (f : pc → nat) (pcs : list pc) i p q :
  pcs !! i = Some p →
  (sum_list_with f (<[i:=q]> pcs) + f p = sum_list_with f pcs + f q)%nat.
Proof.
  revert i. induction pcs as [|x pcs IH]; intros [|i] H; simplify_eq/=.
  - lia.
  - specialize (IH i H). lia.
Qed.

Lemma sum_list_with_replicate (f : pc → nat) n p :
  sum_list_with f (replicate n p) = (n * f p)%nat.
Proof. induction n; simpl; lia. Qed.

Lemma Inv_init : Inv b N M 0 (init b N M).
Proof.
  exists (replicate N (Idle M)). unfold init; simpl. split_and!.
  - by rewrite length_map, length_seq, length_replicate.
  - intros i p [-> Hi]%lookup_replicate.
    rewrite list_lookup_fmap, lookup_seq_lt by done. reflexivity.
  - rewrite sum_list_with_replicate. simpl. lia.
  - rewrite sum_list_with_replicate. simpl. lia.
  - apply recursive_new.
  - rewrite owner_of_new. intros i p [-> _]%lookup_replicate. reflexivity.
  - intros i tmp k [? _]%lookup_replicate. discriminate.
Qed.

Lemma holder_of pcs o i p :
  lock_ok pcs o → pcs !! i = Some p → inside p = true →
  o = Owned (tid i) 1 ∧ ∀ j q, pcs !! j = Some q → inside q = true → j = i.
Proof.
  intros Hlock Hp Hin. destruct o as [|t n]; simpl in Hlock.
  - rewrite (Hlock i p Hp) in Hin. discriminate.
  - destruct Hlock as (-> & j & q & Hq & Hqin & -> & Huniq).
    assert (i = j) as -> by eauto. done.
Qed.

Lemma lock_ok_stay pcs i p q :
  pcs !! i = Some p → inside p = true → inside q = true →
  lock_ok pcs (Owned (tid i) 1) → lock_ok (<[i:=q]> pcs) (Owned (tid i) 1).
Proof.
  intros Hp Hpin Hqin Hlock.
  destruct (holder_of _ _ _ _ Hlock Hp Hpin) as [_ Huniq].
  split; [done|]. exists i, q. split_and!; try done.
  - apply list_lookup_insert_eq. by eapply lookup_lt_Some.
  - intros j r [(-> & _)|(Hne & Hr)]%list_lookup_insert_Some Hrin; [done|eauto].
Qed.

Lemma Inv_step n m m' : Inv b N M n m → mstep m m' → Inv b N M (S n) m'.
Proof.
  intros (pcs & Hlen & Hcode & Hcnt & Hsteps & Hrec & Hlock & Hld) Hstep.
  destruct Hstep as [i ts s t t' s' Hi Hts]. simpl in *.
  assert (Hilt : (i < length ts)%nat) by (by eapply lookup_lt_Some).
  assert (is_Some (pcs !! i)) as [p Hp].
  { apply lookup_lt_is_Some. by rewrite <- Hlen. }
  pose proof (Hcode i p Hp) as Ht. rewrite Hi in Ht. injection Ht as ->.
  assert (Hcode' : ∀ q, t' = code b (tid i) q →
            ∀ j r, <[i:=q]> pcs !! j = Some r →
                   <[i:=t']> ts !! j = Some (code b (tid j) r)).
  { intros q -> j r [(-> & -> & _)|(Hne & Hr)]%list_lookup_insert_Some.
    - by rewrite list_lookup_insert_eq.
    - rewrite list_lookup_insert_ne by done. auto. }
  destruct p as [[|k]|k|tmp k|k]; simpl in Hts.
  - done.
  - destruct Hts as (u & Hact & ->). unfold enter in Hact.
    rewrite Enter_spec in Hact by done.
    destruct (owner_of (cs s)) as [|t cnt] eqn:Ho.
    + injection Hact as <- <-.
      exists (<[i:=Entered k]> pcs). simpl. split_and!.
      * by rewrite !length_insert.
      * by apply Hcode'.
      * pose proof (sum_list_with_insert todo pcs i _ (Entered k) Hp). simpl in *. lia.
      * pose proof (sum_list_with_insert steps_left pcs i _ (Entered k) Hp).
        simpl in *. lia.
      * auto using recursive_TRACK_OWNER, recursive_with_owner.
      * rewrite owner_of_TRACK_OWNER, owner_of_with_owner. split; [done|].
        exists i, (Entered k). split_and!; try done.
        -- apply list_lookup_insert_eq. by rewrite <- Hlen.
        -- intros j r [(-> & _)|(Hne & Hr)]%list_lookup_insert_Some Hrin; [done|].
           rewrite (Hlock j r Hr) in Hrin. discriminate.
      * intros j tmp k' [(_ & ? & _)|(_ & Hr)]%list_lookup_insert_Some; [done|eauto].
    + destruct (Z.eqb_spec t (tid i)) as [->|Hne]; [|discriminate].
      destruct Hlock as (_ & j & q & Hq & Hqin & Htid%tid_inj & _). subst j.
      rewrite Hp in Hq. injection Hq as <-. discriminate.
  - destruct Hts as (u & [= <- <-] & ->).
    destruct (holder_of _ _ _ _ Hlock Hp eq_refl) as [Ho Huniq].
    exists (<[i:=Loaded (counter s) k]> pcs). simpl. split_and!.
    + by rewrite !length_insert.
    + by apply Hcode'.
    + pose proof (sum_list_with_insert todo pcs i _ (Loaded (counter s) k) Hp).
      simpl in *. lia.
    + pose proof (sum_list_with_insert steps_left pcs i _ (Loaded (counter s) k) Hp).
      simpl in *. lia.
    + done.
    + rewrite Ho in *. by eapply lock_ok_stay.
    + intros j tmp k' [(_ & [= <- _] & _)|(_ & Hr)]%list_lookup_insert_Some; [done|eauto].
  - destruct Hts as (u & [= <- <-] & ->). simpl.
    destruct (holder_of _ _ _ _ Hlock Hp eq_refl) as [Ho Huniq].
    pose proof (Hld i tmp k Hp) as ->.
    exists (<[i:=Stored k]> pcs). simpl. split_and!.
    + by rewrite !length_insert.
    + by apply Hcode'.
    + pose proof (sum_list_with_insert todo pcs i _ (Stored k) Hp). simpl in *. lia.
    + pose proof (sum_list_with_insert steps_left pcs i _ (Stored k) Hp).
      simpl in *. lia.
    + done.
    + simpl. rewrite Ho in *. by eapply lock_ok_stay.
    + intros j tmp k' [(_ & ? & _)|(Hne & Hr)]%list_lookup_insert_Some; [done|].
      destruct Hne. symmetry. by eapply Huniq.
  - destruct Hts as (u & Hact & ->). unfold leave in Hact.
    destruct (holder_of _ _ _ _ Hlock Hp eq_refl) as [Ho Huniq].
    rewrite (Leave_owner b (tid i) 1 (cs s) Ho) in Hact.
    injection Hact as <- <-.
    exists (<[i:=Idle k]> pcs). simpl. split_and!.
    + by rewrite !length_insert.
    + by apply Hcode'.
    + pose proof (sum_list_with_insert todo pcs i _ (Idle k) Hp). simpl in *. lia.
    + pose proof (sum_list_with_insert steps_left pcs i _ (Idle k) Hp).
      simpl in *. lia.
    + auto using recursive_TRACK_OWNER, recursive_with_owner.
    + rewrite owner_of_with_owner.
      intros j r [(-> & <- & _)|(Hne & Hr)]%list_lookup_insert_Some; [done|].
      destruct (inside r) eqn:Hrin; [|done]. destruct Hne. symmetry. by eapply Huniq.
    + intros j tmp k' [(_ & ? & _)|(_ & Hr)]%list_lookup_insert_Some; [done|eauto].
Qed.

Lemma Inv_nsteps n m : nsteps mstep n (init b N M) m → Inv b N M n m.
Proof.
  revert m. induction n as [|n IH]; intros m H.
  - inversion H; subst. apply Inv_init.
  - apply nsteps_inv_r in H as (m0 & H0 & Hstep). eauto using Inv_step.
Qed.

Lemma worker_not_in_region self k : ¬ in_region b (worker b self k).
Proof.
  intros (self' & rest & H).
  destruct k as [|k].
  - assert (Hr : returned (worker b self 0)) by exact I.
    destruct H as [H|[[tmp H]|H]]; rewrite H in Hr; exact Hr.
  - set (s0 := {| cs := new_CriticalSection b; counter := 0 |}).
    assert (Hw : first_step (worker b self (S k)) s0 = Some (Owned self 1)).
    { simpl. unfold enter. simpl.
      rewrite (Enter_spec b self _ (recursive_new b)), owner_of_new. simpl.
      by rewrite owner_of_TRACK_OWNER, owner_of_with_owner. }
    destruct H as [H|[[tmp H]|H]]; rewrite H in Hw; simpl in Hw.
    + by rewrite owner_of_new in Hw.
    + by rewrite owner_of_new in Hw.
    + unfold leave in Hw. simpl in Hw.
      destruct (Leave b self' (new_CriticalSection b)) as [c| |] eqn:HL; [|done..].
      simpl in Hw. by rewrite (Leave_Free b self' _ c (owner_of_new b) HL) in Hw.
Qed.

Lemma code_in_region self p : in_region b (code b self p) → inside p = true.
Proof.
  destruct p; [|done..]. intros H. by apply worker_not_in_region in H.
Qed.

Lemma code_returned self p : returned (code b self p) → p = Idle 0.
Proof. by destruct p as [[|k]|k|tmp k|k]. Qed.

Lemma Inv_lookup n m i t :
  Inv b N M n m → m.1 !! i = Some t →
  ∃ pcs p, pcs !! i = Some p ∧ t = code b (tid i) p ∧
           lock_ok pcs (owner_of (cs m.2)) ∧ recursive (cs m.2).
Proof.
  intros (pcs & Hlen & Hcode & _ & _ & Hrec & Hlock & _) Hi.
  assert (is_Some (pcs !! i)) as [p Hp].
  { apply lookup_lt_is_Some. rewrite <- Hlen. by eapply lookup_lt_Some. }
  pose proof (Hcode i p Hp) as Ht. rewrite Hi in Ht. injection Ht as ->.
  eauto 10.
Qed.

(** Mutual exclusion: no two threads are inside the region at once. *)
Lemma Inv_exclusion n m i j ti tj :
  Inv b N M n m → m.1 !! i = Some ti → m.1 !! j = Some tj →
  in_region b ti → in_region b tj → i = j.
Proof.
  intros (pcs & Hlen & Hcode & _ & _ & Hrec & Hlock & _) Hi Hj Hri Hrj.
  assert (Hin : ∀ k t, m.1 !! k = Some t → in_region b t →
            ∃ p, pcs !! k = Some p ∧ inside p = true).
  { intros k t Hk Hr.
    assert (is_Some (pcs !! k)) as [p Hp].
    { apply lookup_lt_is_Some. rewrite <- Hlen. by eapply lookup_lt_Some. }
    pose proof (Hcode k p Hp) as Ht. rewrite Hk in Ht. injection Ht as ->.
    eauto using code_in_region. }
  destruct (Hin i ti Hi Hri) as (p & Hp & Hpin).
  destruct (Hin j tj Hj Hrj) as (q & Hq & Hqin).
  destruct (holder_of _ _ _ _ Hlock Hp Hpin) as [_ Huniq]. symmetry. eauto.
Qed.

Lemma sum_todo_zero pcs :
  (∀ i p, pcs !! i = Some p → p = Idle 0) → sum_list_with todo pcs = 0%nat.
Proof.
  induction pcs as [|p pcs IH]; intros H; [done|]. simpl.
  rewrite (H 0%nat p eq_refl), IH; [done|].
  intros i q Hq. apply (H (S i) q Hq).
Qed.

(** No lost update: when every thread has returned the counter holds N×M. *)
Lemma Inv_final n m :
  Inv b N M n m → all_returned m → counter m.2 = Z.of_nat N * Z.of_nat M.
Proof.
  intros (pcs & Hlen & Hcode & Hcnt & _) Hall.
  rewrite sum_todo_zero in Hcnt; [lia|].
  intros i p Hp. apply (code_returned (tid i)).
  unfold all_returned in Hall. rewrite Forall_lookup in Hall.
  eapply Hall, Hcode, Hp.
Qed.

Lemma Inv_defined n m : Inv b N M n m → ¬ machine_undefined m.
Proof.
  intros HInv (i & t & Hi & Hu).
  destruct (Inv_lookup n m i t HInv Hi) as (pcs & p & Hp & -> & Hlock & Hrec).
  destruct p as [[|k]|k|tmp k|k]; simpl in Hu; try done.
  - unfold enter in Hu. rewrite Enter_spec in Hu by done.
    destruct (owner_of (cs m.2)) as [|t c]; [done|]. by destruct (t =? tid i).
  - unfold leave in Hu.
    destruct (holder_of _ _ _ _ Hlock Hp eq_refl) as [Ho _].
    by rewrite (Leave_owner b (tid i) 1 _ Ho) in Hu.
Qed.

(** Never stuck: some thread can step unless every thread has returned. *)
Lemma Inv_progress n m : Inv b N M n m → all_returned m ∨ ∃ m', mstep m m'.
Proof.
  intros (pcs & Hlen & Hcode & _ & _ & Hrec & Hlock & _).
  destruct m as [ts s]. simpl in *.
  assert (Hgo : ∀ i p t' s', pcs !! i = Some p →
            thread_step (code b (tid i) p) s t' s' → ∃ m', mstep (ts, s) m').
  { intros i p t' s' Hp Hst. eexists.
    eapply (mstep_thread i); [by apply Hcode|exact Hst]. }
  destruct (owner_of (cs s)) as [|t c] eqn:Ho; simpl in Hlock.
  - destruct (Forall_Exists_dec (λ p, p = Idle 0) (λ p, p ≠ Idle 0)
                (λ p, decide (p = Idle 0)) pcs) as [Hall|Hex].
    + left. unfold all_returned. simpl. apply Forall_lookup. intros i t Hi.
      assert (is_Some (pcs !! i)) as [p Hp].
      { apply lookup_lt_is_Some. rewrite <- Hlen. by eapply lookup_lt_Some. }
      rewrite Forall_lookup in Hall.
      pose proof (Hcode i p Hp) as Ht. rewrite Hi in Ht. injection Ht as ->.
      by rewrite (Hall i p Hp).
    + right. apply Exists_exists in Hex as (p & Hin & Hne).
      apply list_elem_of_lookup in Hin as [i Hp].
      pose proof (Hlock i p Hp) as Hout.
      destruct p as [[|k]|k|tmp k|k]; try done.
      eapply (Hgo i _ _ _ Hp). simpl. exists tt. split; [|reflexivity].
      unfold enter. by rewrite Enter_spec, Ho.
  - right. destruct Hlock as (-> & i & p & Hp & Hin & -> & _).
    destruct p as [k|k|tmp k|k]; try done; eapply (Hgo i _ _ _ Hp); simpl.
    + exists (counter s). split; reflexivity.
    + exists tt. split; reflexivity.
    + exists tt. split; [|reflexivity].
      unfold leave. by rewrite (Leave_owner b (tid i) 1 _ Ho).
Qed.

(** Every run can be completed, and completes within the steps left. *)
Lemma Inv_completes k n m :
  (4 * (N * M) - n = k)%nat → Inv b N M n m →
  ∃ mf, rtc mstep m mf ∧ all_returned mf ∧ counter mf.2 = Z.of_nat N * Z.of_nat M.
Proof.
  revert n m. induction k as [|k IH]; intros n m Hk HInv.
  - destruct (Inv_progress n m HInv) as [Hall|[m' Hstep]].
    + exists m. eauto using Inv_final, rtc_refl.
    + destruct (Inv_step n m m' HInv Hstep) as (pcs & _ & _ & _ & Hs & _).
      destruct HInv as (pcs0 & _ & _ & _ & Hs0 & _). lia.
  - destruct (Inv_progress n m HInv) as [Hall|[m' Hstep]].
    + exists m. eauto using Inv_final, rtc_refl.
    + destruct (IH (S n) m') as (mf & Hrun & Hfin); [lia|eauto using Inv_step|].
      exists mf. eauto using rtc_l.
Qed.

End Counter_proof.

(** C9.  Mutual exclusion.  [N] threads each run, [M] times, [Enter], a
    read of the shared counter, a write of the value read plus one, [Leave],
    on one [CriticalSection], under any preemptive schedule.  In every state
    such a run reaches: no two threads are inside the region (between their
    [Enter] and their [Leave]) at once; if every thread has returned the
    counter holds exactly N×M; no step has undefined behaviour; unless every
    thread has returned some thread can step; the run can be continued to a
    state where all threads have returned and the counter holds N×M; and the
    run is at most 4×N×M steps long, so it cannot go on for ever. *)
Theorem counter_under_lock_is_exact
    (b : build) (N M : nat) (m : machine Counter.shared unit) :
  rtc mstep (Counter.init b N M) m →
  (∀ i j ti tj,
     m.1 !! i = Some ti → m.1 !! j = Some tj →
     Counter.in_region b ti → Counter.in_region b tj → i = j) ∧
  (all_returned m → Counter.counter m.2 = Z.of_nat N * Z.of_nat M) ∧
  ¬ machine_undefined m ∧
  (all_returned m ∨ ∃ m', mstep m m') ∧
  (∃ mf, rtc mstep m mf ∧ all_returned mf ∧
         Counter.counter mf.2 = Z.of_nat N * Z.of_nat M) ∧
  (∀ n, nsteps mstep n (Counter.init b N M) m → (n ≤ 4 * (N * M))%nat).
Proof.
  intros [n Hn]%rtc_nsteps. pose proof (Inv_nsteps b N M n m Hn) as HInv.
  split_and!.
  - intros i j ti tj. by apply (Inv_exclusion b N M n m).
  - by apply (Inv_final b N M n m).
  - by apply (Inv_defined b N M n m).
  - by apply (Inv_progress b N M n m).
  - by apply (Inv_completes b N M _ n m eq_refl).
  - intros n' Hn'. destruct (Inv_nsteps b N M n' m Hn') as (pcs & _ & _ & _ & Hs & _).
    lia.
Qed.

(** The theorem at the start of a run of two threads, one iteration each, in
    an [__APPLE__] debug build: the run can be completed, with the counter
    at 2. *)
Lemma counter_under_lock_is_exact_witness :
  ∃ mf, rtc mstep (Counter.init (Build APPLE true) 2 1) mf ∧ all_returned mf ∧
        Counter.counter mf.2 = 2.
Proof.
  destruct (counter_under_lock_is_exact (Build APPLE true) 2 1
              (Counter.init (Build APPLE true) 2 1) (rtc_refl _ _))
    as (_ & _ & _ & _ & H & _).
  exact H.
Defined.

(** * Which operations of [AtomicOps] take the lock *)

Section lock_based_path.
Import Sync AtomicOps.
Context (b : build) (self : thread_id) (i : Z) (f : Z → Z).

(** Step by step: after two steps the caller holds the static lock and the
    memory is as before; after the read and the write it still holds the
    lock and the new value is stored; the last step releases the lock and
    the call returns the value stored. *)
Lemma locked_update_steps (v z : Z) (ps : process) :
  heap ps !! i = Some v → wrap32 (f v) = z → lock_free ps →
  ∃ t2 p2 t4 p4 p5,
    advance 2 (locked_update b self i f) ps = Returns (t2, p2) ∧
    lock_held_by self p2 ∧ heap p2 = heap ps ∧
    advance 2 t2 p2 = Returns (t4, p4) ∧
    lock_held_by self p4 ∧ heap p4 = <[i:=z]> (heap ps) ∧
    advance 1 t4 p4 = Returns (Ret z, p5) ∧
    lock_free p5 ∧ heap p5 = <[i:=z]> (heap ps) ∧
    run (locked_update b self i f) ps = Returns (z, p5).
Proof.
  intros Hv Hf Hfree.
  destruct (locked_update_runs b self i v z f ps Hv Hf Hfree)
    as (p5 & Hrun & Hheap5 & Hfree5).
  set (c0 := match crit ps with Some cs => cs | None => new_CriticalSection b end).
  assert (Hc0 : recursive c0 ∧ owner_of c0 = Free).
  { unfold lock_free in Hfree. subst c0. destruct (crit ps); [done|].
    split; [apply recursive_new|apply owner_of_new]. }
  destruct Hc0 as [Hrec Hown].
  set (c1 := TRACK_OWNER b (set_thread_ self) (with_owner (Owned self 1) c0)).
  set (ps0 := match crit ps with
              | None => set_crit (new_CriticalSection b) ps
              | Some _ => ps
              end).
  assert (Hcrit : crit ps0 = Some c0).
  { subst ps0 c0. by destruct (crit ps) eqn:E. }
  assert (Hheap : heap ps0 = heap ps) by (subst ps0; by destruct (crit ps)).
  assert (HE : SafeLock_ctor b self ps0 = Returns (tt, set_crit c1 ps0)).
  { unfold SafeLock_ctor, on_crit, Lock.
    by rewrite Hcrit, (Enter_spec b self c0 Hrec), Hown. }
  assert (Hc1 : recursive c1 ∧ owner_of c1 = Owned self 1).
  { subst c1. split.
    - auto using recursive_TRACK_OWNER, recursive_with_owner.
    - by rewrite owner_of_TRACK_OWNER, owner_of_with_owner. }
  exists (v ← atomic (load i);
          r ← atomic (store_int i (f v));
          _ ← atomic (SafeLock_dtor b self);
          mret r),
         (set_crit c1 ps0),
         (_ ← atomic (SafeLock_dtor b self); mret z),
         (set_heap (<[i:=z]> (heap ps)) (set_crit c1 ps0)),
         p5.
  split_and!; try done.
  - simpl. fold ps0. by rewrite HE.
  - split; [apply Hc1|]. exists 1%positive. apply Hc1.
  - simpl. unfold load, store_int. simpl. rewrite Hheap, Hv. simpl.
    by rewrite Hheap, Hv, Hf.
  - split; [apply Hc1|]. exists 1%positive. apply Hc1.
  - revert Hrun. unfold locked_update. simpl. fold ps0. rewrite HE. simpl.
    unfold load, store_int. simpl. rewrite Hheap, Hv. simpl.
    rewrite Hheap, Hv, Hf. simpl.
    destruct (SafeLock_dtor b self _) as [[u p]| |]; simpl; [|done..].
    by intros [= <-].
Qed.

(** While another thread holds the static lock, the lock-based body waits. *)
Lemma locked_update_blocks (other : thread_id) (ps : process) :
  other ≠ self → lock_held_by other ps → run (locked_update b self i f) ps = Blocks.
Proof.
  intros Hne Hheld. unfold lock_held_by in Hheld.
  destruct (crit ps) as [c|] eqn:Hc; [|done]. destruct Hheld as (Hrec & n & Ho).
  unfold locked_update. simpl. rewrite Hc.
  unfold SafeLock_ctor, on_crit, Lock. rewrite Hc, (Enter_spec b self c Hrec), Ho.
  by destruct (Z.eqb_spec other self).
Qed.

End lock_based_path.

(** C8, as stated, fails for [SafeGet] and [SafeSet].  In an [__APPLE__]
    build, with the static lock held by thread 2: [SafeGet] and [SafeSet]
    called by thread 1 return at once (they do not wait for the lock, and
    leave it as it is), where [Increment] and [Decrement] block.  And while
    the lock has never been created, [SafeGet] and [SafeSet] do not create
    it. *)
Lemma SafeGet_SafeSet_take_no_lock :
  run (AtomicOps.SafeGet (Build APPLE false) 16)
      (AtomicOps.mkProcess {[ 16 := 3 ]}
         (Some (Sync.mkCriticalSection
                  (Sync.mutex_ (Pthread.mkMutex Pthread.PTHREAD_MUTEX_RECURSIVE (Owned 2 1)))
                  None)))
    = Returns (3, AtomicOps.mkProcess {[ 16 := 3 ]}
         (Some (Sync.mkCriticalSection
                  (Sync.mutex_ (Pthread.mkMutex Pthread.PTHREAD_MUTEX_RECURSIVE (Owned 2 1)))
                  None))) ∧
  run (AtomicOps.SafeSet (Build APPLE false) 16 7)
      (AtomicOps.mkProcess {[ 16 := 3 ]}
         (Some (Sync.mkCriticalSection
                  (Sync.mutex_ (Pthread.mkMutex Pthread.PTHREAD_MUTEX_RECURSIVE (Owned 2 1)))
                  None)))
    = Returns (3, AtomicOps.mkProcess {[ 16 := 7 ]}
         (Some (Sync.mkCriticalSection
                  (Sync.mutex_ (Pthread.mkMutex Pthread.PTHREAD_MUTEX_RECURSIVE (Owned 2 1)))
                  None))) ∧
  run (AtomicOps.Increment (Build APPLE false) 1 16)
      (AtomicOps.mkProcess {[ 16 := 3 ]}
         (Some (Sync.mkCriticalSection
                  (Sync.mutex_ (Pthread.mkMutex Pthread.PTHREAD_MUTEX_RECURSIVE (Owned 2 1)))
                  None)))
    = Blocks ∧
  run (AtomicOps.Decrement (Build APPLE false) 1 16)
      (AtomicOps.mkProcess {[ 16 := 3 ]}
         (Some (Sync.mkCriticalSection
                  (Sync.mutex_ (Pthread.mkMutex Pthread.PTHREAD_MUTEX_RECURSIVE (Owned 2 1)))
                  None)))
    = Blocks ∧
  run (AtomicOps.SafeGet (Build APPLE false) 16) (AtomicOps.mkProcess {[ 16 := 3 ]} None)
    = Returns (3, AtomicOps.mkProcess {[ 16 := 3 ]} None) ∧
  run (AtomicOps.SafeSet (Build APPLE false) 16 7) (AtomicOps.mkProcess {[ 16 := 3 ]} None)
    = Returns (3, AtomicOps.mkProcess {[ 16 := 7 ]} None).
Proof. split_and!; reflexivity. Qed.

(** C8, amended.  Only [Increment] and [Decrement] have a lock-based path,
    taken in builds that are not [WIN32].  There each of them creates the
    process-wide lock on first use, acquires it (waiting while another thread
    holds it), reads and writes the location while it holds the lock, and
    releases it; it returns the same result and leaves the same memory as
    the interlocked [WIN32] path (the 32-bit value of [v + 1], of [v - 1]).
    [SafeGet] and [SafeSet] have no lock-based path: in both builds they are
    an atomic exchange with the same result, which leaves the lock untouched
    whoever holds it. *)
Theorem lock_based_path_of_Increment_Decrement
    (d : bool) (self : thread_id) (l v : Z) (ps : AtomicOps.process) :
  AtomicOps.heap ps !! l = Some v →
  (run (AtomicOps.SafeGet (Build APPLE d) l) ps
     = run (AtomicOps.SafeGet (Build WIN32 d) l) ps ∧
   ∃ ps', run (AtomicOps.SafeGet (Build APPLE d) l) ps = Returns (v, ps') ∧
          AtomicOps.crit ps' = AtomicOps.crit ps) ∧
  (∀ w,
     run (AtomicOps.SafeSet (Build APPLE d) l w) ps
       = run (AtomicOps.SafeSet (Build WIN32 d) l w) ps ∧
     ∃ ps', run (AtomicOps.SafeSet (Build APPLE d) l w) ps = Returns (v, ps') ∧
            AtomicOps.crit ps' = AtomicOps.crit ps) ∧
  (∀ other, other ≠ self → lock_held_by other ps →
     run (AtomicOps.Increment (Build APPLE d) self l) ps = Blocks ∧
     run (AtomicOps.Decrement (Build APPLE d) self l) ps = Blocks) ∧
  (lock_free ps →
   ∃ t2 p2 t4 p4 p5 pw,
     advance 2 (AtomicOps.Increment (Build APPLE d) self l) ps = Returns (t2, p2) ∧
     lock_held_by self p2 ∧ AtomicOps.heap p2 = AtomicOps.heap ps ∧
     advance 2 t2 p2 = Returns (t4, p4) ∧
     lock_held_by self p4 ∧ AtomicOps.heap p4 = <[l:=AtomicOps.wrap32 (v + 1)]> (AtomicOps.heap ps) ∧
     advance 1 t4 p4 = Returns (Ret (AtomicOps.wrap32 (v + 1)), p5) ∧
     lock_free p5 ∧ AtomicOps.heap p5 = <[l:=AtomicOps.wrap32 (v + 1)]> (AtomicOps.heap ps) ∧
     run (AtomicOps.Increment (Build APPLE d) self l) ps = Returns (AtomicOps.wrap32 (v + 1), p5) ∧
     run (AtomicOps.Increment (Build WIN32 d) self l) ps = Returns (AtomicOps.wrap32 (v + 1), pw) ∧
     AtomicOps.heap pw = AtomicOps.heap p5) ∧
  (lock_free ps →
   ∃ t2 p2 t4 p4 p5 pw,
     advance 2 (AtomicOps.Decrement (Build APPLE d) self l) ps = Returns (t2, p2) ∧
     lock_held_by self p2 ∧ AtomicOps.heap p2 = AtomicOps.heap ps ∧
     advance 2 t2 p2 = Returns (t4, p4) ∧
     lock_held_by self p4 ∧ AtomicOps.heap p4 = <[l:=AtomicOps.wrap32 (v - 1)]> (AtomicOps.heap ps) ∧
     advance 1 t4 p4 = Returns (Ret (AtomicOps.wrap32 (v - 1)), p5) ∧
     lock_free p5 ∧ AtomicOps.heap p5 = <[l:=AtomicOps.wrap32 (v - 1)]> (AtomicOps.heap ps) ∧
     run (AtomicOps.Decrement (Build APPLE d) self l) ps = Returns (AtomicOps.wrap32 (v - 1), p5) ∧
     run (AtomicOps.Decrement (Build WIN32 d) self l) ps = Returns (AtomicOps.wrap32 (v - 1), pw) ∧
     AtomicOps.heap pw = AtomicOps.heap p5).
Proof.
  intros Hv. split_and!.
  - by rewrite !(SafeGet_alone _ l v ps Hv).
  - exists ps. by rewrite (SafeGet_alone _ l v ps Hv).
  - intros w.
    rewrite !(SafeSet_alone _ l w v ps Hv). split; [done|].
    eexists. split; reflexivity.
  - intros other Hne Hheld. split.
    + apply (locked_update_blocks (Build APPLE d) self l (λ v, v + 1) other ps Hne Hheld).
    + apply (locked_update_blocks (Build APPLE d) self l (λ v, v - 1) other ps Hne Hheld).
  - intros Hfree.
    destruct (locked_update_steps (Build APPLE d) self l (λ v, v + 1) v _ ps
                Hv eq_refl Hfree)
      as (t2 & p2 & t4 & p4 & p5 & H1 & H2 & H3 & H4 & H5 & H6 & H7 & H8 & H9 & H10).
    exists t2, p2, t4, p4, p5,
      (AtomicOps.set_heap (<[l:=AtomicOps.wrap32 (v + 1)]> (AtomicOps.heap ps)) ps).
    split_and!; try done.
    unfold AtomicOps.Increment. simpl. unfold AtomicOps.InterlockedIncrement.
    by rewrite Hv.
  - intros Hfree.
    destruct (locked_update_steps (Build APPLE d) self l (λ v, v - 1) v _ ps
                Hv eq_refl Hfree)
      as (t2 & p2 & t4 & p4 & p5 & H1 & H2 & H3 & H4 & H5 & H6 & H7 & H8 & H9 & H10).
    exists t2, p2, t4, p4, p5,
      (AtomicOps.set_heap (<[l:=AtomicOps.wrap32 (v - 1)]> (AtomicOps.heap ps)) ps).
    split_and!; try done.
    unfold AtomicOps.Decrement. simpl. unfold AtomicOps.InterlockedDecrement.
    by rewrite Hv.
Qed.

(** The theorem at location 16 holding 41, in a process that has not created
    the lock yet: the lock-based [Increment] and the interlocked one both
    return 42 and leave 42 stored. *)
Lemma lock_based_path_of_Increment_Decrement_witness :
  ∃ p5 pw,
    run (AtomicOps.Increment (Build APPLE true) 1 16)
        (AtomicOps.mkProcess {[ 16 := 41 ]} None) = Returns (41 + 1, p5) ∧
    run (AtomicOps.Increment (Build WIN32 true) 1 16)
        (AtomicOps.mkProcess {[ 16 := 41 ]} None) = Returns (41 + 1, pw) ∧
    lock_free p5 ∧ AtomicOps.heap pw = AtomicOps.heap p5.
Proof.
  assert (Hv : AtomicOps.heap (AtomicOps.mkProcess {[ 16 := 41 ]} None) !! 16 = Some 41)
    by reflexivity.
  destruct (lock_based_path_of_Increment_Decrement true 1 16 41
              (AtomicOps.mkProcess {[ 16 := 41 ]} None) Hv)
    as (_ & _ & _ & H & _).
  destruct (H I)
    as (t2 & p2 & t4 & p4 & p5 & pw & _ & _ & _ & _ & _ & _ & _ & H8 & _ & H10 & H11 & H12).
  exists p5, pw. auto.
Defined.


(** * More about [Sync::CriticalSection] *)
Section CriticalSection_more.
Import Win32 Pthread Sync.
Context (b : build).

Ltac unfold_calls :=
  unfold Enter, TryEnter, Leave, new_CriticalSection, TRACK_OWNER, set_thread_,
    set_handle, EnterCriticalSection, TryEnterCriticalSection, LeaveCriticalSection,
    InitializeCriticalSection, pthread_mutex_lock, pthread_mutex_trylock,
    pthread_mutex_unlock, pthread_mutex_init, pthread_mutexattr_settype,
    pthread_mutexattr_init, FALSE, TRUE, EBUSY, EPERM,
    mret, outcome_ret, mbind, outcome_mbind, outcome_bind in *.

Ltac split_calls self :=
  repeat match goal with
         | H : context [CS_TRACK_OWNER b] |- _ => destruct (CS_TRACK_OWNER b)
         | |- context [CS_TRACK_OWNER b] => destruct (CS_TRACK_OWNER b)
         | H : context [(?t =? self)%Z] |- _ => destruct (t =? self)%Z
         | |- context [(?t =? self)%Z] => destruct (t =? self)%Z
         | H : context [(?n =? 1)%positive] |- _ => destruct (n =? 1)%positive
         | |- context [(?n =? 1)%positive] => destruct (n =? 1)%positive
         | _ => progress (simpl in *)
         end.

Lemma reachable_native_of cs : reachable b cs → native_of b cs.
Proof.
  induction 1 as [|self cs cs' _ IH HE|self cs _ IH|self cs cs' _ IH HL];
    unfold native_of in *.
  - unfold_calls. destruct (target b), (CS_TRACK_OWNER b); done.
  - destruct (target b), cs as [[[o]|[ty o]] th]; simpl in IH; try done; subst;
      unfold_calls; simpl in *; destruct o; split_calls self; simplify_eq; done.
  - destruct (target b), cs as [[[o]|[ty o]] th]; simpl in IH; try done; subst;
      unfold_calls; simpl in *; destruct o; split_calls self; done.
  - destruct (target b), cs as [[[o]|[ty o]] th]; simpl in IH; try done; subst;
      unfold_calls; simpl in *; destruct o; split_calls self; simplify_eq; done.
Qed.

(** Without [CS_TRACK_OWNER] no call ever gives the object a [thread_]. *)
Lemma release_thread_None cs : _DEBUG b = false → reachable b cs → thread_ cs = None.
Proof.
  intros Hd. induction 1 as [|self cs cs' _ IH HE|self cs _ IH|self cs cs' _ IH HL].
  - unfold new_CriticalSection, TRACK_OWNER, CS_TRACK_OWNER. by rewrite Hd.
  - destruct cs as [[[o]|[ty o]] th]; simpl in IH; subst;
      unfold_calls; unfold CS_TRACK_OWNER in *; rewrite Hd in HE; simpl in *;
      destruct o; try destruct ty; split_calls self; simplify_eq; done.
  - destruct cs as [[[o]|[ty o]] th]; simpl in IH; subst;
      unfold_calls; unfold CS_TRACK_OWNER in *; rewrite Hd; simpl in *;
      destruct o; try destruct ty; split_calls self; done.
  - destruct cs as [[[o]|[ty o]] th]; simpl in IH; subst;
      unfold_calls; unfold CS_TRACK_OWNER in *; rewrite Hd in HL; simpl in *;
      destruct o; try destruct ty; split_calls self; simplify_eq; done.
Qed.

(** A lock nobody holds has the [thread_] the constructor gave it. *)
Lemma reachable_idle_thread_ cs :
  reachable b cs → owner_of cs = Free → thread_ cs = idle_thread_ b.
Proof.
  intros Hr Ho. unfold idle_thread_, CS_TRACK_OWNER.
  destruct (_DEBUG b) eqn:Hd.
  - destruct (tracked_owner_sound b cs Hd Hr) as [?|(t & n & Ho' & _)]; [done|].
    congruence.
  - by apply release_thread_None.
Qed.

Lemma Enter_Leave_id self cs :
  recursive cs → owner_of cs = Free → thread_ cs = idle_thread_ b →
  ∃ cs', Enter b self cs = Returns cs' ∧ TryEnter b self cs = (true, cs') ∧
         owner_of cs' = Owned self 1 ∧ Leave b self cs' = Returns cs.
Proof.
  intros Hrec Ho Hth.
  exists (TRACK_OWNER b (set_thread_ self) (with_owner (Owned self 1) cs)).
  assert (Ho' : owner_of (TRACK_OWNER b (set_thread_ self) (with_owner (Owned self 1) cs))
                = Owned self 1) by (by rewrite owner_of_TRACK_OWNER, owner_of_with_owner).
  rewrite Enter_spec, TryEnter_spec, Ho by done. split_and!; try done.
  rewrite (Leave_owner b self 1 _ Ho'). f_equal.
  destruct cs as [[[o]|[ty o]] th]; unfold owner_of in Ho; simpl in *; subst;
    unfold TRACK_OWNER, idle_thread_; destruct (CS_TRACK_OWNER b); reflexivity.
Qed.

End CriticalSection_more.

(** The lemma [CurrentThreadIsOwner_true_holds] at the lock thread 1 has
    entered once, in a [WIN32] debug build. *)
Lemma CurrentThreadIsOwner_true_holds_witness :
  ∃ n, Sync.state_of
         (Sync.mkCriticalSection (Sync.crit_ (Win32.mkCRITICAL_SECTION (Owned 1 1)))
            (Some 1))
       = Sync.LockedByT 1 n.
Proof.
  refine (CurrentThreadIsOwner_true_holds (Build WIN32 true) 1
            (Sync.mkCriticalSection (Sync.crit_ (Win32.mkCRITICAL_SECTION (Owned 1 1)))
               (Some 1)) _ _ _ _).
  - reflexivity.
  - eapply Sync.reach_Enter with (self := 1); [apply Sync.reach_new|reflexivity].
  - lia.
  - reflexivity.
Defined.

(** X2.  [TryEnter] and [Enter] agree: on every object a program can hold,
    [TryEnter] returns true with an object exactly when [Enter] returns that
    object, and returns false exactly when [Enter] would block; [Enter] is
    never undefined. *)
Theorem TryEnter_agrees_with_Enter
    (b : build) (self : thread_id) (cs : Sync.CriticalSection) :
  Sync.reachable b cs →
  (∀ cs', Sync.TryEnter b self cs = (true, cs') ↔ Sync.Enter b self cs = Returns cs') ∧
  ((Sync.TryEnter b self cs).1 = false ↔ Sync.Enter b self cs = Blocks) ∧
  Sync.Enter b self cs ≠ Undefined.
Proof.
  intros Hrec%reachable_recursive.
  rewrite (TryEnter_spec b self cs Hrec), (Enter_spec b self cs Hrec).
  destruct (Sync.owner_of cs) as [|t n]; [|destruct (t =? self)]; simpl; split_and!;
    try done; try (intros cs'; split; intros; simplify_eq; done).
Qed.

(** The theorem at the lock thread 1 holds, for thread 2: [TryEnter] fails
    and [Enter] blocks. *)
Lemma TryEnter_agrees_with_Enter_witness :
  Sync.TryEnter (Build APPLE true) 2
    (Sync.mkCriticalSection
       (Sync.mutex_ (Pthread.mkMutex Pthread.PTHREAD_MUTEX_RECURSIVE (Owned 1 1)))
       (Some 1)) =
  (false,
   Sync.mkCriticalSection
     (Sync.mutex_ (Pthread.mkMutex Pthread.PTHREAD_MUTEX_RECURSIVE (Owned 1 1)))
     (Some 1)) ∧
  Sync.Enter (Build APPLE true) 2
    (Sync.mkCriticalSection
       (Sync.mutex_ (Pthread.mkMutex Pthread.PTHREAD_MUTEX_RECURSIVE (Owned 1 1)))
       (Some 1)) = Blocks.
Proof.
  assert (Hr : Sync.reachable (Build APPLE true)
                 (Sync.mkCriticalSection
                    (Sync.mutex_ (Pthread.mkMutex Pthread.PTHREAD_MUTEX_RECURSIVE (Owned 1 1)))
                    (Some 1))).
  { eapply Sync.reach_Enter with (self := 1); [apply Sync.reach_new|reflexivity]. }
  destruct (TryEnter_agrees_with_Enter (Build APPLE true) 2 _ Hr) as (_ & H & _).
  split; [reflexivity|]. apply H. reflexivity.
Defined.

(** X3.  Entering a free lock and leaving it is a round trip: [Leave] gives
    back the very object [Enter] (or a successful [TryEnter]) started from,
    native lock and tracked owner alike. *)
Theorem Enter_Leave_round_trip
    (b : build) (self : thread_id) (cs : Sync.CriticalSection) :
  Sync.reachable b cs → Sync.state_of cs = Sync.Unlocked →
  ∃ cs', Sync.Enter b self cs = Returns cs' ∧
         Sync.TryEnter b self cs = (true, cs') ∧
         Sync.Leave b self cs' = Returns cs.
Proof.
  intros Hr Hst%state_of_Unlocked.
  destruct (Enter_Leave_id b self cs) as (cs' & ? & ? & _ & ?);
    eauto using reachable_recursive, reachable_idle_thread_.
Qed.

(** The theorem at a new lock. *)
Lemma Enter_Leave_round_trip_witness :
  ∃ cs', Sync.Enter (Build WIN32 true) 7 (Sync.new_CriticalSection (Build WIN32 true))
           = Returns cs' ∧
         Sync.TryEnter (Build WIN32 true) 7 (Sync.new_CriticalSection (Build WIN32 true))
           = (true, cs') ∧
         Sync.Leave (Build WIN32 true) 7 cs'
           = Returns (Sync.new_CriticalSection (Build WIN32 true)).
Proof.
  apply (Enter_Leave_round_trip (Build WIN32 true) 7 _ (Sync.reach_new _)).
  reflexivity.
Defined.

(** X4.  [Leave] by a thread that does not hold the lock.  The [WIN32] class
    passes the call to [LeaveCriticalSection], for which it is an error
    (undefined).  The [__APPLE__] class does not look at the result of
    [pthread_mutex_unlock] (which refuses): the call returns, the mutex stays
    with its owner, and where owners are tracked the tracked owner has been
    reset to 0 all the same. *)
Theorem Leave_without_holding
    (b : build) (self : thread_id) (cs : Sync.CriticalSection) :
  Sync.reachable b cs →
  (∀ n, Sync.state_of cs ≠ Sync.LockedByT self n) →
  match target b with
  | WIN32 => Sync.Leave b self cs = Undefined
  | APPLE =>
      ∃ cs', Sync.Leave b self cs = Returns cs' ∧
             Sync.handle cs' = Sync.handle cs ∧
             Sync.thread_ cs' = if _DEBUG b then Some 0 else Sync.thread_ cs
  end.
Proof.
  intros Hnat%reachable_native_of Hst. unfold native_of in Hnat.
  assert (Ho : ∀ t n, Sync.owner_of cs = Owned t n → t ≠ self).
  { intros t n Ho ->. apply (Hst (Pos.to_nat n)). unfold Sync.state_of. by rewrite Ho. }
  unfold Sync.Leave, TRACK_OWNER, CS_TRACK_OWNER.
  destruct (target b), cs as [[[o]|[ty o]] th]; simpl in Hnat; try done; subst;
    unfold Sync.owner_of in Ho; simpl in Ho.
  - unfold Win32.LeaveCriticalSection.
    destruct (_DEBUG b); simpl; destruct o as [|t n]; try done;
      destruct (Z.eqb_spec t self) as [->|]; try done; by destruct (Ho self n).
  - unfold Pthread.pthread_mutex_unlock.
    destruct (_DEBUG b); simpl; destruct o as [|t n]; simpl; eauto;
      destruct (Z.eqb_spec t self) as [->|]; simpl; eauto; by destruct (Ho self n).
Qed.

(** The theorem at the lock thread 1 holds, for thread 2, in an [__APPLE__]
    debug build. *)
Lemma Leave_without_holding_witness :
  ∃ cs', Sync.Leave (Build APPLE true) 2
           (Sync.mkCriticalSection
              (Sync.mutex_ (Pthread.mkMutex Pthread.PTHREAD_MUTEX_RECURSIVE (Owned 1 1)))
              (Some 1)) = Returns cs' ∧
         Sync.handle cs'
           = Sync.mutex_ (Pthread.mkMutex Pthread.PTHREAD_MUTEX_RECURSIVE (Owned 1 1)) ∧
         Sync.thread_ cs' = Some 0.
Proof.
  refine (Leave_without_holding (Build APPLE true) 2
            (Sync.mkCriticalSection
               (Sync.mutex_ (Pthread.mkMutex Pthread.PTHREAD_MUTEX_RECURSIVE (Owned 1 1)))
               (Some 1)) _ _).
  - eapply Sync.reach_Enter with (self := 1); [apply Sync.reach_new|reflexivity].
  - intros n. discriminate.
Defined.

(** X5.  Owner tracking never changes the locking.  Whatever [Enter],
    [TryEnter] or [Leave] does in a build with [CS_TRACK_OWNER] (returning,
    blocking, its boolean result, the native lock it leaves), it does the same
    in the build without, on the object without its [thread_] member. *)
Theorem owner_tracking_does_not_change_locking
    (b : build) (self : thread_id) (cs : Sync.CriticalSection) :
  (c ← Sync.Enter b self cs; mret (erase_owner c))
    = Sync.Enter (Build (target b) false) self (erase_owner cs) ∧
  (c ← Sync.Leave b self cs; mret (erase_owner c))
    = Sync.Leave (Build (target b) false) self (erase_owner cs) ∧
  ((Sync.TryEnter b self cs).1, erase_owner (Sync.TryEnter b self cs).2)
    = Sync.TryEnter (Build (target b) false) self (erase_owner cs).
Proof.
  unfold Sync.Enter, Sync.Leave, Sync.TryEnter, TRACK_OWNER, CS_TRACK_OWNER, erase_owner.
  destruct cs as [[c|m] th]; simpl; split_and!.
  - by destruct (Win32.EnterCriticalSection self c), (_DEBUG b).
  - destruct (_DEBUG b); simpl; by destruct (Win32.LeaveCriticalSection self c).
  - by destruct (negb _), (_DEBUG b).
  - by destruct (Pthread.pthread_mutex_lock self m), (_DEBUG b).
  - destruct (_DEBUG b); simpl; by destruct (Pthread.pthread_mutex_unlock self m).
  - by destruct (_ =? 0), (_DEBUG b).
Qed.

Section nested_calls.
Import Sync.
Context (b : build) (self : thread_id).

Lemma Enter_n_held n : ∀ cs m,
  recursive cs → state_of cs = LockedByT self m →
  ∃ c, call_n n (Enter b self) cs = Returns c ∧
       state_of c = LockedByT self (m + n) ∧ recursive c.
Proof.
  induction n as [|n IH]; intros cs m Hrec Hst; simpl.
  - exists cs. by rewrite Nat.add_0_r.
  - destruct (Enter_LockedBySelf b self cs m Hrec Hst) as (c1 & -> & Hst1 & Hrec1).
    destruct (IH c1 (m + 1)%nat Hrec1 Hst1) as (c & Hc & Hstc & Hrecc).
    exists c. simpl. split_and!; try done. rewrite Hstc. f_equal. lia.
Qed.

Lemma Leave_k_held k : ∀ cs m,
  recursive cs → state_of cs = LockedByT self m → (k < m)%nat →
  ∃ c, call_n k (Leave b self) cs = Returns c ∧
       state_of c = LockedByT self (m - k) ∧ recursive c.
Proof.
  induction k as [|k IH]; intros cs m Hrec Hst Hk; simpl.
  - exists cs. by rewrite Nat.sub_0_r.
  - destruct (Leave_LockedBySelf b self cs m Hst) as (c1 & -> & Hst1 & Hrec1).
    rewrite decide_False in Hst1 by lia.
    destruct (IH c1 (m - 1)%nat (Hrec1 Hrec) Hst1 ltac:(lia)) as (c & Hc & Hstc & Hrecc).
    exists c. simpl. split_and!; try done. rewrite Hstc. f_equal. lia.
Qed.

Lemma Leave_all m : ∀ cs,
  recursive cs → state_of cs = LockedByT self (S m) →
  ∃ c, call_n (S m) (Leave b self) cs = Returns c ∧ state_of c = Unlocked.
Proof.
  induction m as [|m IH]; intros cs Hrec Hst; simpl.
  - destruct (Leave_LockedBySelf b self cs 1 Hst) as (c1 & -> & Hst1 & _).
    exists c1. done.
  - destruct (Leave_LockedBySelf b self cs (S (S m)) Hst) as (c1 & -> & Hst1 & Hrec1).
    assert (Hst1' : state_of c1 = LockedByT self (S m)).
    { rewrite Hst1, decide_False by lia. done. }
    destruct (IH c1 (Hrec1 Hrec) Hst1') as (c & Hc & Hstc).
    exists c. simpl. simpl in Hc. done.
Qed.

End nested_calls.

(** X6.  The lock nests to any depth.  From a free lock, [n] calls of
    [Enter] by one thread all return and leave the lock held by it at count
    [n]; [k] calls of [Leave] then leave it held at count [n - k] while
    [k < n], and free exactly when [k = n]. *)
Theorem nested_Enter_Leave
    (b : build) (self : thread_id) (cs : Sync.CriticalSection) (n k : nat) :
  Sync.reachable b cs → Sync.state_of cs = Sync.Unlocked → (k ≤ n)%nat →
  ∃ c1 c2,
    call_n n (Sync.Enter b self) cs = Returns c1 ∧
    Sync.state_of c1 = (if decide (n = 0%nat) then Sync.Unlocked
                        else Sync.LockedByT self n) ∧
    call_n k (Sync.Leave b self) c1 = Returns c2 ∧
    Sync.state_of c2 = (if decide (k = n) then Sync.Unlocked
                        else Sync.LockedByT self (n - k)).
Proof.
  intros Hrec%reachable_recursive Hst Hk.
  destruct n as [|n].
  - assert (k = 0%nat) as -> by lia. exists cs, cs. simpl. done.
  - destruct (Enter_Unlocked b self cs Hrec Hst) as (c0 & HE & Hst0 & Hrec0).
    destruct (Enter_n_held b self n c0 1%nat Hrec0 Hst0) as (c1 & Hc1 & Hst1 & Hrec1).
    assert (Hn : call_n (S n) (Sync.Enter b self) cs = Returns c1).
    { simpl. rewrite HE. exact Hc1. }
    replace (1 + n)%nat with (S n) in Hst1 by lia.
    destruct (decide (k = S n)) as [->|Hne].
    + destruct (Leave_all b self n c1 Hrec1 Hst1) as (c2 & Hc2 & Hst2).
      exists c1, c2. done.
    + destruct (Leave_k_held b self k c1 (S n) Hrec1 Hst1 ltac:(lia))
        as (c2 & Hc2 & Hst2 & _).
      exists c1, c2. done.
Qed.

(** The theorem at three calls of [Enter] and two of [Leave]. *)
Lemma nested_Enter_Leave_witness :
  ∃ c1 c2,
    call_n 3 (Sync.Enter (Build APPLE false) 5)
      (Sync.new_CriticalSection (Build APPLE false)) = Returns c1 ∧
    Sync.state_of c1 = Sync.LockedByT 5 3 ∧
    call_n 2 (Sync.Leave (Build APPLE false) 5) c1 = Returns c2 ∧
    Sync.state_of c2 = Sync.LockedByT 5 1.
Proof.
  refine (nested_Enter_Leave (Build APPLE false) 5 _ 3 2 (Sync.reach_new _) _ _).
  - reflexivity.
  - lia.
Defined.


(** * More about [AtomicOps] *)
Section AtomicOps_more.
Import Sync AtomicOps.
Context (b : build) (self : thread_id) (i : Z).

Lemma Increment_run (v : Z) (ps : process) :
  heap ps !! i = Some v → representable (v + 1) = true → lock_free ps →
  ∃ ps', run (Increment b self i) ps = Returns (v + 1, ps') ∧
         heap ps' = <[i:=v + 1]> (heap ps) ∧ lock_free ps'.
Proof.
  intros Hv Hrep Hfree. unfold Increment. destruct (target b).
  - rewrite run_atomic. unfold InterlockedIncrement.
    rewrite Hv, wrap32_representable by done. eauto.
  - apply (locked_update_runs b self i v (v + 1) (λ v, v + 1)); [done| |done].
    by apply wrap32_representable.
Qed.

Lemma Decrement_run (v : Z) (ps : process) :
  heap ps !! i = Some v → representable (v - 1) = true → lock_free ps →
  ∃ ps', run (Decrement b self i) ps = Returns (v - 1, ps') ∧
         heap ps' = <[i:=v - 1]> (heap ps) ∧ lock_free ps'.
Proof.
  intros Hv Hrep Hfree. unfold Decrement. destruct (target b).
  - rewrite run_atomic. unfold InterlockedDecrement.
    rewrite Hv, wrap32_representable by done. eauto.
  - apply (locked_update_runs b self i v (v - 1) (λ v, v - 1)); [done| |done].
    by apply wrap32_representable.
Qed.

(** The lock-based body where the static lock is free or does not exist yet:
    it returns with [c0] in place, the object that was there, or the new one
    where there was none. *)
Lemma locked_update_free (f : Z → Z) (v : Z) (ps : process) (c0 : CriticalSection) :
  heap ps !! i = Some v →
  (crit ps = None ∧ c0 = new_CriticalSection b) ∨ crit ps = Some c0 →
  reachable b c0 → owner_of c0 = Free →
  run (locked_update b self i f) ps
    = Returns (wrap32 (f v), {| heap := <[i:=wrap32 (f v)]> (heap ps); crit := Some c0 |}).
Proof.
  intros Hv Hcrit Hreach Ho.
  destruct (Enter_Leave_id b self c0) as (c1 & HE & _ & _ & HL).
  { by apply reachable_recursive with b. }
  { done. }
  { by apply reachable_idle_thread_. }
  set (ps1 := {| heap := heap ps; crit := Some c0 |}).
  assert (H1 : StaticCrit b ps = Returns (tt, ps1)).
  { unfold StaticCrit, ps1. destruct Hcrit as [[Hc ->]|Hc]; rewrite Hc; [done|].
    destruct ps; simpl in *; by subst. }
  unfold locked_update. simpl. unfold StaticCrit in H1. injection H1 as ->.
  unfold SafeLock_ctor, SafeLock_dtor, on_crit, Lock, UnLock, load, store_int.
  simpl. rewrite HE. simpl. rewrite Hv. simpl. rewrite Hv. simpl.
  by rewrite HL.
Qed.

(** An [Enter] by the holder followed by its [Leave] gives the object back,
    but for the tracked owner, which the [Leave] resets. *)
Lemma Enter_Leave_nested (cs : CriticalSection) (n : positive) :
  recursive cs → owner_of cs = Owned self n →
  ∃ c1, Enter b self cs = Returns c1 ∧
        Leave b self c1 = Returns (TRACK_OWNER b (set_thread_ 0) cs).
Proof.
  intros Hrec Ho.
  exists (TRACK_OWNER b (set_thread_ self) (with_owner (Owned self (Pos.succ n)) cs)).
  rewrite Enter_spec, Ho, Z.eqb_refl by done. split; [done|].
  rewrite (Leave_owner b self (Pos.succ n))
    by (by rewrite owner_of_TRACK_OWNER, owner_of_with_owner).
  assert (Hn : (Pos.succ n =? 1)%positive = false) by (apply Pos.eqb_neq; lia).
  rewrite Hn, Pos.pred_succ. f_equal.
  destruct cs as [[[o]|[ty o]] th]; unfold owner_of in Ho; simpl in *; subst;
    unfold TRACK_OWNER; destruct (CS_TRACK_OWNER b); reflexivity.
Qed.

(** The lock-based body called by a thread that holds the static lock
    already: it returns, with the same lock in place, held as before. *)
Lemma locked_update_nested (f : Z → Z) (v : Z) (ps : process)
    (cs : CriticalSection) (n : positive) :
  heap ps !! i = Some v → crit ps = Some cs →
  recursive cs → owner_of cs = Owned self n →
  run (locked_update b self i f) ps
    = Returns (wrap32 (f v),
               {| heap := <[i:=wrap32 (f v)]> (heap ps);
                  crit := Some (TRACK_OWNER b (set_thread_ 0) cs) |}).
Proof.
  intros Hv Hcrit Hrec Ho.
  destruct (Enter_Leave_nested cs n Hrec Ho) as (c1 & HE & HL).
  unfold locked_update. simpl. unfold StaticCrit. rewrite Hcrit.
  unfold SafeLock_ctor, SafeLock_dtor, on_crit, Lock, UnLock, load, store_int.
  simpl. rewrite Hcrit. simpl. rewrite HE. simpl. rewrite Hv. simpl. rewrite Hv. simpl.
  by rewrite HL.
Qed.

End AtomicOps_more.

(** X7.  [Increment] and [Decrement] undo each other.  On a location holding
    an [int] [v], with the static lock not held: [Increment] then [Decrement]
    (for [v] below the largest [int]) returns [v] and leaves the memory as it
    was; so does [Decrement] then [Increment] (for [v] above the smallest);
    on the interlocked and on the lock-based path alike. *)
Theorem Increment_Decrement_round_trip
    (b : build) (self : thread_id) (i v : Z) (ps : AtomicOps.process) :
  AtomicOps.heap ps !! i = Some v → lock_free ps →
  AtomicOps.representable v = true →
  (v < AtomicOps.INT_MAX →
   ∃ ps', run (_ ← AtomicOps.Increment b self i; AtomicOps.Decrement b self i) ps
            = Returns (v, ps') ∧
          AtomicOps.heap ps' = AtomicOps.heap ps ∧ lock_free ps') ∧
  (AtomicOps.INT_MIN < v →
   ∃ ps', run (_ ← AtomicOps.Decrement b self i; AtomicOps.Increment b self i) ps
            = Returns (v, ps') ∧
          AtomicOps.heap ps' = AtomicOps.heap ps ∧ lock_free ps').
Proof.
  intros Hv Hfree Hrep.
  apply andb_true_iff in Hrep as [Hlo%Z.leb_le Hhi%Z.leb_le].
  assert (Hr : ∀ z, AtomicOps.INT_MIN ≤ z ≤ AtomicOps.INT_MAX →
                    AtomicOps.representable z = true).
  { intros z Hz. apply andb_true_iff. split; apply Z.leb_le; lia. }
  split; intros Hb.
  - destruct (Increment_run b self i v ps Hv) as (p1 & H1 & Hh1 & Hf1);
      [apply Hr; lia|done|].
    destruct (Decrement_run b self i (v + 1) p1) as (p2 & H2 & Hh2 & Hf2);
      [by rewrite Hh1, lookup_insert_eq|apply Hr; lia|done|].
    exists p2. rewrite run_bind, H1. simpl. rewrite H2. split_and!; [f_equal; f_equal; lia| |done].
    rewrite Hh2, Hh1, insert_insert_eq. replace (v + 1 - 1) with v by lia.
    by apply insert_id.
  - destruct (Decrement_run b self i v ps Hv) as (p1 & H1 & Hh1 & Hf1);
      [apply Hr; lia|done|].
    destruct (Increment_run b self i (v - 1) p1) as (p2 & H2 & Hh2 & Hf2);
      [by rewrite Hh1, lookup_insert_eq|apply Hr; lia|done|].
    exists p2. rewrite run_bind, H1. simpl. rewrite H2. split_and!; [f_equal; f_equal; lia| |done].
    rewrite Hh2, Hh1, insert_insert_eq. replace (v - 1 + 1) with v by lia.
    by apply insert_id.
Qed.

(** The theorem at location 16 holding 0, on the lock-based path. *)
Lemma Increment_Decrement_round_trip_witness :
  ∃ ps', run (_ ← AtomicOps.Increment (Build APPLE true) 1 16;
              AtomicOps.Decrement (Build APPLE true) 1 16)
             (AtomicOps.mkProcess {[ 16 := 0 ]} None) = Returns (0, ps') ∧
         AtomicOps.heap ps' = {[ 16 := 0 ]} ∧ lock_free ps'.
Proof.
  assert (Hv : AtomicOps.heap (AtomicOps.mkProcess {[ 16 := 0 ]} None) !! 16 = Some 0)
    by reflexivity.
  destruct (Increment_Decrement_round_trip (Build APPLE true) 1 16 0
              (AtomicOps.mkProcess {[ 16 := 0 ]} None) Hv I eq_refl) as [H _].
  apply H. unfold AtomicOps.INT_MAX. lia.
Defined.

(** X8.  A value set is the value got.  Running alone, [SafeSet] followed
    by [SafeGet] on the same location returns the value just set, and leaves
    it stored; nothing else of the process changes. *)
Theorem SafeSet_then_SafeGet
    (b : build) (nVal nNewVal old : Z) (ps : AtomicOps.process) :
  AtomicOps.heap ps !! nVal = Some old →
  run (_ ← AtomicOps.SafeSet b nVal nNewVal; AtomicOps.SafeGet b nVal) ps
    = Returns (nNewVal,
               AtomicOps.set_heap (<[nVal:=nNewVal]> (AtomicOps.heap ps)) ps).
Proof.
  intros H. rewrite run_bind, (SafeSet_alone b nVal nNewVal old ps H). simpl.
  apply SafeGet_alone. simpl. apply lookup_insert_eq.
Qed.

(** The theorem at location 16 holding 3, set to 9. *)
Lemma SafeSet_then_SafeGet_witness :
  run (_ ← AtomicOps.SafeSet (Build WIN32 false) 16 9;
       AtomicOps.SafeGet (Build WIN32 false) 16)
      (AtomicOps.mkProcess {[ 16 := 3 ]} None)
    = Returns (9, AtomicOps.mkProcess (<[16:=9]> {[ 16 := 3 ]}) None).
Proof.
  refine (SafeSet_then_SafeGet (Build WIN32 false) 16 9 3
            (AtomicOps.mkProcess {[ 16 := 3 ]} None) _).
  reflexivity.
Defined.

(** X9.  The static lock is made once.  On the lock-based path [Increment]
    and [Decrement] create the lock of [StaticCrit] only when it does not
    exist yet; a lock that exists is used as it is and never replaced.  If it
    is free, the call returns and leaves that very object, free.  If another
    thread holds it, the call waits.  If the caller holds it already, the call
    returns and the lock is still the same object, held by the caller as often
    as before (with its tracked owner reset).  The [WIN32] path neither
    creates nor touches the lock.  In all cases that return, the result is the
    32-bit value of [v + 1] (of [v - 1]), stored at the location. *)
Theorem static_lock_is_made_once
    (b : build) (self : thread_id) (i v : Z) (ps : AtomicOps.process)
    (op : thread AtomicOps.process Z) (r : Z) :
  AtomicOps.heap ps !! i = Some v →
  (∀ cs, AtomicOps.crit ps = Some cs → Sync.reachable b cs) →
  (op = AtomicOps.Increment b self i ∧ r = AtomicOps.wrap32 (v + 1)) ∨
  (op = AtomicOps.Decrement b self i ∧ r = AtomicOps.wrap32 (v - 1)) →
  (target b = WIN32 →
   run op ps = Returns (r, {| AtomicOps.heap := <[i:=r]> (AtomicOps.heap ps);
                              AtomicOps.crit := AtomicOps.crit ps |})) ∧
  (target b = APPLE →
   (AtomicOps.crit ps = None →
    run op ps = Returns (r, {| AtomicOps.heap := <[i:=r]> (AtomicOps.heap ps);
                               AtomicOps.crit := Some (Sync.new_CriticalSection b) |})) ∧
   (∀ cs, AtomicOps.crit ps = Some cs →
      (Sync.state_of cs = Sync.Unlocked →
       run op ps = Returns (r, {| AtomicOps.heap := <[i:=r]> (AtomicOps.heap ps);
                                  AtomicOps.crit := Some cs |})) ∧
      (∀ t n, t ≠ self → Sync.state_of cs = Sync.LockedByT t n →
         run op ps = Blocks) ∧
      (∀ n, Sync.state_of cs = Sync.LockedByT self n →
         run op ps
           = Returns (r, {| AtomicOps.heap := <[i:=r]> (AtomicOps.heap ps);
                            AtomicOps.crit :=
                              Some (TRACK_OWNER b (Sync.set_thread_ 0) cs) |}) ∧
         Sync.handle (TRACK_OWNER b (Sync.set_thread_ 0) cs) = Sync.handle cs ∧
         Sync.state_of (TRACK_OWNER b (Sync.set_thread_ 0) cs)
           = Sync.LockedByT self n))).
Proof.
  intros Hv Hreach Hop.
  assert (∃ f, r = AtomicOps.wrap32 (f v) ∧
               (target b = WIN32 →
                run op ps = Returns (r, AtomicOps.set_heap (<[i:=r]> (AtomicOps.heap ps)) ps)) ∧
               (target b = APPLE → op = locked_update b self i f))
    as (f & -> & Hwin & Happle).
  { destruct Hop as [[-> ->]|[-> ->]].
    - exists (λ v, v + 1). split; [done|].
      unfold AtomicOps.Increment. split; intros ->; [|done].
      rewrite run_atomic. unfold AtomicOps.InterlockedIncrement. by rewrite Hv.
    - exists (λ v, v - 1). split; [done|].
      unfold AtomicOps.Decrement. split; intros ->; [|done].
      rewrite run_atomic. unfold AtomicOps.InterlockedDecrement. by rewrite Hv. }
  split; [exact Hwin|]. intros Htb. rewrite (Happle Htb). split.
  - intros Hc.
    apply (locked_update_free b self i f v ps (Sync.new_CriticalSection b) Hv);
      [by left|apply Sync.reach_new|apply owner_of_new].
  - intros cs Hc. pose proof (Hreach cs Hc) as Hr.
    pose proof (reachable_recursive b cs Hr) as Hrec. split_and!.
    + intros Hst%state_of_Unlocked.
      apply (locked_update_free b self i f v ps cs Hv); [by right|done|done].
    + intros t n Hne (k & Ho & _)%state_of_LockedByT.
      apply (locked_update_blocks b self i f t ps Hne).
      unfold lock_held_by. rewrite Hc. eauto.
    + intros n (k & Ho & ->)%state_of_LockedByT. split_and!.
      * by apply (locked_update_nested b self i f v ps cs k).
      * unfold TRACK_OWNER. by destruct (CS_TRACK_OWNER b).
      * unfold Sync.state_of. by rewrite owner_of_TRACK_OWNER, Ho.
Qed.

(** The theorem on the lock-based path, at a lock that thread 2 holds: the
    call of thread 1 waits, where a lock made anew would let it pass. *)
Lemma static_lock_is_made_once_witness :
  run (AtomicOps.Increment (Build APPLE true) 1 16)
      (AtomicOps.mkProcess {[ 16 := 7 ]}
         (Some (Sync.mkCriticalSection
                  (Sync.mutex_ (Pthread.mkMutex Pthread.PTHREAD_MUTEX_RECURSIVE (Owned 2 1)))
                  (Some 2))))
    = Blocks.
Proof.
  set (cs := Sync.mkCriticalSection
               (Sync.mutex_ (Pthread.mkMutex Pthread.PTHREAD_MUTEX_RECURSIVE (Owned 2 1)))
               (Some 2)).
  assert (Hv : AtomicOps.heap (AtomicOps.mkProcess {[ 16 := 7 ]} (Some cs)) !! 16 = Some 7)
    by reflexivity.
  assert (Hr : ∀ c, AtomicOps.crit (AtomicOps.mkProcess {[ 16 := 7 ]} (Some cs)) = Some c →
                    Sync.reachable (Build APPLE true) c).
  { intros c [= <-].
    exact (Sync.reach_Enter (Build APPLE true) 2 _ cs (Sync.reach_new _) eq_refl). }
  destruct (static_lock_is_made_once (Build APPLE true) 1 16 7
              (AtomicOps.mkProcess {[ 16 := 7 ]} (Some cs))
              (AtomicOps.Increment (Build APPLE true) 1 16) (AtomicOps.wrap32 (7 + 1))
              Hv Hr (or_introl (conj eq_refl eq_refl))) as [_ H].
  destruct (H eq_refl) as [_ H'].
  destruct (H' cs eq_refl) as (_ & Hb & _).
  apply (Hb 2 1%nat); [lia|reflexivity].
Defined.


(** * [Increment] under contention *)

Lemma sum_list_with_insert_at {A : Type} (f : A → nat) (l : list A) j x y :
  l !! j = Some x →
  (sum_list_with f (<[j:=y]> l) + f x = sum_list_with f l + f y)%nat.
Proof.
  revert j. induction l as [|a l IH]; intros [|j] H; simplify_eq/=.
  - lia.
  - specialize (IH j H). lia.
Qed.

Lemma sum_list_with_lookup_le {A : Type} (f : A → nat) (l : list A) j x :
  l !! j = Some x → (f x ≤ sum_list_with f l)%nat.
Proof.
  revert j. induction l as [|a l IH]; intros [|j] H; simplify_eq/=.
  - lia.
  - specialize (IH j H). lia.
Qed.

Section Increment_contention.
Import Sync AtomicOps.
Context (b : build) (N M : nat) (i : Z) (ps0 : process).
Hypothesis Hzero : heap ps0 !! i = Some 0.
Hypothesis Hfree : lock_free ps0.
Hypothesis Hbound : Z.of_nat (N * M) ≤ INT_MAX.

Lemma IInv_init : IInv b N M i ps0 0 (inc_init b N M i ps0).
Proof.
  exists (replicate N (IIdle M)), 0. unfold inc_init; simpl. split_and!.
  - by rewrite length_map, length_seq, length_replicate.
  - intros j p [-> Hj]%lookup_replicate.
    rewrite list_lookup_fmap, lookup_seq_lt by done. reflexivity.
  - by rewrite insert_id.
  - done.
  - induction N; simpl; lia.
  - induction N; simpl; lia.
  - intros cs Hc. unfold lock_free in Hfree. rewrite Hc in Hfree. apply Hfree.
  - intros j p [-> _]%lookup_replicate. discriminate.
  - unfold static_owner. unfold lock_free in Hfree.
    destruct (crit ps0) as [cs|]; [destruct Hfree as [_ ->]|];
      intros j p [-> _]%lookup_replicate; reflexivity.
  - intros j v k [? _]%lookup_replicate. discriminate.
Qed.

Lemma iholder_of pcs o j p :
  ilock_ok pcs o → pcs !! j = Some p → iinside p = true →
  o = Owned (Counter.tid j) 1 ∧ ∀ j' q, pcs !! j' = Some q → iinside q = true → j' = j.
Proof.
  intros Hlock Hp Hin. destruct o as [|t n]; simpl in Hlock.
  - rewrite (Hlock j p Hp) in Hin. discriminate.
  - destruct Hlock as (-> & j' & q & Hq & Hqin & -> & Huniq).
    assert (j = j') as -> by eauto. done.
Qed.

Lemma ilock_ok_inside pcs j p q :
  pcs !! j = Some p → iinside p = true → iinside q = true →
  ilock_ok pcs (Owned (Counter.tid j) 1) →
  ilock_ok (<[j:=q]> pcs) (Owned (Counter.tid j) 1).
Proof.
  intros Hp Hpin Hqin Hlock.
  destruct (iholder_of _ _ _ _ Hlock Hp Hpin) as [_ Huniq].
  split; [done|]. exists j, q. split_and!; try done.
  - apply list_lookup_insert_eq. by eapply lookup_lt_Some.
  - intros j' r [(-> & _)|(Hne & Hr)]%list_lookup_insert_Some Hrin; [done|eauto].
Qed.

Lemma ilock_ok_outside pcs o j p q :
  pcs !! j = Some p → iinside p = false → iinside q = false →
  ilock_ok pcs o → ilock_ok (<[j:=q]> pcs) o.
Proof.
  intros Hp Hpout Hqout Hlock. destruct o as [|t n]; simpl in *.
  - intros j' r [(-> & <- & _)|(Hne & Hr)]%list_lookup_insert_Some; eauto.
  - destruct Hlock as (-> & h & r & Hr & Hrin & -> & Huniq).
    split; [done|]. exists h, r.
    assert (h ≠ j) by (intros ->; congruence).
    split_and!; try done.
    + by rewrite list_lookup_insert_ne.
    + intros j' r' [(-> & <- & _)|(Hne & Hr')]%list_lookup_insert_Some Hin;
        [congruence|eauto].
Qed.

(** The value about to be written fits an [int]. *)
Lemma next_representable pcs (c : Z) j p :
  0 ≤ c → c + Z.of_nat (sum_list_with itodo pcs) = Z.of_nat (N * M) →
  pcs !! j = Some p → (1 ≤ itodo p)%nat → representable (c + 1) = true.
Proof.
  intros Hc Hsum Hp Hp1.
  pose proof (sum_list_with_lookup_le itodo pcs j p Hp).
  unfold representable, INT_MIN, INT_MAX in *.
  apply andb_true_iff; split; apply Z.leb_le; lia.
Qed.

Lemma IInv_step n m m' :
  IInv b N M i ps0 n m → mstep m m' → IInv b N M i ps0 (S n) m'.
Proof.
  intros (pcs & c & Hlen & Hcode & Hheap & Hc0 & Hcnt & Hsteps & Hrec & Hcre & Hlock & Hld)
    Hstep.
  destruct Hstep as [j ts s t t' s' Hj Hts]. simpl in *.
  assert (Hjlt : (j < length ts)%nat) by (by eapply lookup_lt_Some).
  assert (is_Some (pcs !! j)) as [p Hp].
  { apply lookup_lt_is_Some. by rewrite <- Hlen. }
  pose proof (Hcode j p Hp) as Ht. rewrite Hj in Ht. injection Ht as ->.
  assert (Hi : heap s !! i = Some c) by (by rewrite Hheap, lookup_insert_eq).
  assert (Hcode' : ∀ q, t' = icode b i (Counter.tid j) q →
            ∀ h r, <[j:=q]> pcs !! h = Some r →
                   <[j:=t']> ts !! h = Some (icode b i (Counter.tid h) r)).
  { intros q -> h r [(-> & -> & _)|(Hne & Hr)]%list_lookup_insert_Some.
    - by rewrite list_lookup_insert_eq.
    - rewrite list_lookup_insert_ne by done. auto. }
  assert (Hsum : ∀ q, (sum_list_with itodo (<[j:=q]> pcs) + itodo p
                       = sum_list_with itodo pcs + itodo q)%nat).
  { intros q. by apply sum_list_with_insert_at. }
  assert (Hsum' : ∀ q, (sum_list_with (isteps (steps_per_call b)) (<[j:=q]> pcs)
                          + isteps (steps_per_call b) p
                        = sum_list_with (isteps (steps_per_call b)) pcs
                          + isteps (steps_per_call b) q)%nat).
  { intros q. by apply sum_list_with_insert_at. }
  destruct p as [[|k]|k|k|v k|r k].
  - done.
  - (* between two calls: the interlocked increment, or [StaticCrit] *)
    simpl in Hts. unfold Increment in Hts. unfold steps_per_call in *.
    destruct (target b) eqn:Htb; simpl in Hts.
    + destruct Hts as (u & Hact & ->). unfold InterlockedIncrement in Hact.
      rewrite Hi in Hact.
      rewrite wrap32_representable in Hact
        by (by eapply (next_representable pcs c j (IIdle (S k))); simpl; try lia).
      injection Hact as <- <-.
      exists (<[j:=IIdle k]> pcs), (c + 1). simpl.
      unfold steps_per_call. rewrite Htb. split_and!.
      * by rewrite !length_insert.
      * by apply Hcode'.
      * by rewrite Hheap, insert_insert_eq.
      * lia.
      * specialize (Hsum (IIdle k)). simpl in *. lia.
      * specialize (Hsum' (IIdle k)). simpl in *. lia.
      * done.
      * intros h q [(-> & <- & _)|(_ & Hq)]%list_lookup_insert_Some; [done|eauto].
      * by eapply ilock_ok_outside.
      * intros h v k' [(_ & ? & _)|(Hne & Hq)]%list_lookup_insert_Some; [done|].
        by destruct (Hcre h _ Hq eq_refl) as [? _].
    + destruct Hts as (u & Hact & ->). unfold StaticCrit in Hact.
      injection Hact as <- <-.
      exists (<[j:=ICreated k]> pcs), c. simpl.
      unfold steps_per_call. rewrite Htb. split_and!.
      * by rewrite !length_insert.
      * by apply Hcode'.
      * by destruct (crit s).
      * done.
      * specialize (Hsum (ICreated k)). simpl in *. lia.
      * specialize (Hsum' (ICreated k)). simpl in *. lia.
      * intros cs. destruct (crit s) as [c0|] eqn:Hc; simpl.
        -- rewrite Hc. apply Hrec.
        -- intros [= <-]. apply recursive_new.
      * intros h q _ _. split; [done|]. destruct (crit s) eqn:Hc; simpl; [|done].
        by rewrite Hc.
      * assert (static_owner match crit s with
                             | Some _ => s
                             | None => set_crit (new_CriticalSection b) s
                             end = static_owner s) as ->.
        { unfold static_owner. destruct (crit s) eqn:Hc; simpl; [by rewrite Hc|].
          apply owner_of_new. }
        by eapply ilock_ok_outside.
      * intros h v k' [(_ & ? & _)|(_ & Hq)]%list_lookup_insert_Some; [done|eauto].
  - (* the guard's constructor: [Lock] *)
    simpl in Hts. destruct Hts as (u & Hact & ->).
    unfold SafeLock_ctor, on_crit, Lock in Hact.
    destruct (Hcre j _ Hp eq_refl) as [Htb [cs Hcs]].
    rewrite Hcs in Hact. rewrite (Enter_spec b _ cs (Hrec cs Hcs)) in Hact.
    unfold static_owner in Hlock. rewrite Hcs in Hlock.
    destruct (owner_of cs) as [|t cnt] eqn:Ho.
    + injection Hact as <- <-.
      exists (<[j:=IEntered k]> pcs), c. simpl. split_and!.
      * by rewrite !length_insert.
      * by apply Hcode'.
      * done.
      * done.
      * specialize (Hsum (IEntered k)). simpl in *. lia.
      * specialize (Hsum' (IEntered k)). simpl in *. lia.
      * intros cs' [= <-]. auto using recursive_TRACK_OWNER, recursive_with_owner.
      * intros h q _ _. eauto.
      * unfold static_owner. simpl.
        rewrite owner_of_TRACK_OWNER, owner_of_with_owner. split; [done|].
        exists j, (IEntered k). split_and!; try done.
        -- apply list_lookup_insert_eq. by rewrite <- Hlen.
        -- intros h q [(-> & _)|(Hne & Hq)]%list_lookup_insert_Some Hqin; [done|].
           rewrite (Hlock h q Hq) in Hqin. discriminate.
      * intros h v k' [(_ & ? & _)|(_ & Hq)]%list_lookup_insert_Some; [done|eauto].
    + destruct (Z.eqb_spec t (Counter.tid j)) as [->|Hne]; [|discriminate].
      destruct Hlock as (_ & h & q & Hq & Hqin & Htid%tid_inj & _). subst h.
      rewrite Hp in Hq. injection Hq as <-. discriminate.
  - (* the read *)
    simpl in Hts. destruct Hts as (u & Hact & ->). unfold load in Hact.
    rewrite Hi in Hact. injection Hact as <- <-.
    destruct (iholder_of _ _ _ _ Hlock Hp eq_refl) as [Ho Huniq].
    exists (<[j:=ILoaded c k]> pcs), c. simpl. split_and!.
    + by rewrite !length_insert.
    + by apply Hcode'.
    + done.
    + done.
    + specialize (Hsum (ILoaded c k)). simpl in *. lia.
    + specialize (Hsum' (ILoaded c k)). simpl in *. lia.
    + done.
    + intros h q _ _. by eapply Hcre.
    + rewrite Ho in *. by eapply ilock_ok_inside.
    + intros h v k' [(_ & [= <- _] & _)|(_ & Hq)]%list_lookup_insert_Some; [done|eauto].
  - (* the write *)
    simpl in Hts. destruct Hts as (u & Hact & ->). unfold store_int in Hact.
    pose proof (Hld j v k Hp) as ->.
    rewrite Hi in Hact.
    rewrite (wrap32_representable (c + 1)) in Hact
      by (apply (next_representable pcs c j (ILoaded c k)); simpl; done || lia).
    injection Hact as <- <-.
    destruct (iholder_of _ _ _ _ Hlock Hp eq_refl) as [Ho Huniq].
    exists (<[j:=IStored (c + 1) k]> pcs), (c + 1). simpl. split_and!.
    + by rewrite !length_insert.
    + by apply Hcode'.
    + by rewrite Hheap, insert_insert_eq.
    + lia.
    + specialize (Hsum (IStored (c + 1) k)). simpl in *. lia.
    + specialize (Hsum' (IStored (c + 1) k)). simpl in *. lia.
    + done.
    + intros h q _ _. by eapply Hcre.
    + unfold static_owner in *. simpl. rewrite Ho in *. by eapply ilock_ok_inside.
    + intros h v k' [(_ & ? & _)|(Hne & Hq)]%list_lookup_insert_Some; [done|].
      destruct Hne. symmetry. by eapply Huniq.
  - (* the guard's destructor: [UnLock] *)
    simpl in Hts. destruct Hts as (u & Hact & ->).
    unfold SafeLock_dtor, on_crit, UnLock in Hact.
    destruct (iholder_of _ _ _ _ Hlock Hp eq_refl) as [Ho Huniq].
    destruct (Hcre j _ Hp eq_refl) as [Htb [cs Hcs]].
    unfold static_owner in Ho. rewrite Hcs in Ho, Hact.
    rewrite (Leave_owner b (Counter.tid j) 1 cs Ho) in Hact.
    injection Hact as <- <-.
    exists (<[j:=IIdle k]> pcs), c. simpl. split_and!.
    + by rewrite !length_insert.
    + by apply Hcode'.
    + done.
    + done.
    + specialize (Hsum (IIdle k)). simpl in *. lia.
    + specialize (Hsum' (IIdle k)). simpl in *. lia.
    + intros cs' [= <-]. auto using recursive_TRACK_OWNER, recursive_with_owner.
    + intros h q _ _. eauto.
    + unfold static_owner. simpl. rewrite owner_of_with_owner.
      intros h q [(-> & <- & _)|(Hne & Hq)]%list_lookup_insert_Some; [done|].
      destruct (iinside q) eqn:Hqin; [|done]. destruct Hne. symmetry. by eapply Huniq.
    + intros h v k' [(_ & ? & _)|(_ & Hq)]%list_lookup_insert_Some; [done|eauto].
Qed.

Lemma IInv_nsteps n m :
  nsteps mstep n (inc_init b N M i ps0) m → IInv b N M i ps0 n m.
Proof.
  revert m. induction n as [|n IH]; intros m H.
  - inversion H; subst. apply IInv_init.
  - apply nsteps_inv_r in H as (m0 & H0 & Hstep). eauto using IInv_step.
Qed.

Lemma icode_returned self p : returned (icode b i self p) → p = IIdle 0.
Proof.
  destruct p as [[|k]|k|k|v k|r k]; try done.
  simpl. unfold Increment. by destruct (target b).
Qed.

Lemma sum_itodo_zero pcs :
  (∀ j p, pcs !! j = Some p → p = IIdle 0) → sum_list_with itodo pcs = 0%nat.
Proof.
  induction pcs as [|p pcs IH]; intros H; [done|]. simpl.
  rewrite (H 0%nat p eq_refl), IH; [done|].
  intros j q Hq. apply (H (S j) q Hq).
Qed.

(** No lost update: when every thread has returned the location holds N×M,
    and the rest of the memory is as it was. *)
Lemma IInv_final n m :
  IInv b N M i ps0 n m → all_returned m →
  heap m.2 = <[i:=Z.of_nat N * Z.of_nat M]> (heap ps0).
Proof.
  intros (pcs & c & Hlen & Hcode & Hheap & Hc0 & Hcnt & _) Hall.
  rewrite sum_itodo_zero in Hcnt.
  - rewrite Hheap. f_equal. lia.
  - intros j p Hp. apply (icode_returned (Counter.tid j)).
    unfold all_returned in Hall. rewrite Forall_lookup in Hall.
    eapply Hall, Hcode, Hp.
Qed.

Lemma IInv_defined n m : IInv b N M i ps0 n m → ¬ machine_undefined m.
Proof.
  intros (pcs & c & Hlen & Hcode & Hheap & Hc0 & Hcnt & Hsteps & Hrec & Hcre & Hlock & Hld)
    (j & t & Hj & Hu).
  assert (is_Some (pcs !! j)) as [p Hp].
  { apply lookup_lt_is_Some. rewrite <- Hlen. by eapply lookup_lt_Some. }
  pose proof (Hcode j p Hp) as Ht. rewrite Hj in Ht. injection Ht as ->.
  assert (Hi : heap m.2 !! i = Some c) by (by rewrite Hheap, lookup_insert_eq).
  destruct p as [[|k]|k|k|v k|r k]; simpl in Hu; try done.
  - unfold Increment in Hu. destruct (target b); simpl in Hu.
    + unfold InterlockedIncrement in Hu. by rewrite Hi in Hu.
    + done.
  - unfold SafeLock_ctor, on_crit, Lock in Hu.
    destruct (Hcre j _ Hp eq_refl) as [_ [cs Hcs]]. rewrite Hcs in Hu.
    rewrite (Enter_spec b _ cs (Hrec cs Hcs)) in Hu.
    destruct (owner_of cs) as [|t cnt]; [done|]. by destruct (t =? Counter.tid j).
  - unfold load in Hu. by rewrite Hi in Hu.
  - unfold store_int in Hu. by rewrite Hi in Hu.
  - unfold SafeLock_dtor, on_crit, UnLock in Hu.
    destruct (iholder_of _ _ _ _ Hlock Hp eq_refl) as [Ho _].
    destruct (Hcre j _ Hp eq_refl) as [_ [cs Hcs]].
    unfold static_owner in Ho. rewrite Hcs in Ho, Hu.
    by rewrite (Leave_owner b (Counter.tid j) 1 cs Ho) in Hu.
Qed.

(** Never stuck: some thread can step unless every thread has returned. *)
Lemma IInv_progress n m :
  IInv b N M i ps0 n m → all_returned m ∨ ∃ m', mstep m m'.
Proof.
  intros (pcs & c & Hlen & Hcode & Hheap & Hc0 & Hcnt & Hsteps & Hrec & Hcre & Hlock & Hld).
  destruct m as [ts s]. simpl in *.
  assert (Hi : heap s !! i = Some c) by (by rewrite Hheap, lookup_insert_eq).
  assert (Hgo : ∀ j p t' s', pcs !! j = Some p →
            thread_step (icode b i (Counter.tid j) p) s t' s' → ∃ m', mstep (ts, s) m').
  { intros j p t' s' Hp Hst. eexists.
    eapply (mstep_thread j); [by apply Hcode|exact Hst]. }
  destruct (static_owner s) as [|t cnt] eqn:Ho; simpl in Hlock.
  - destruct (Forall_Exists_dec (λ p, p = IIdle 0) (λ p, p ≠ IIdle 0)
                (λ p, decide (p = IIdle 0)) pcs) as [Hall|Hex].
    + left. unfold all_returned. simpl. apply Forall_lookup. intros j t Hj.
      assert (is_Some (pcs !! j)) as [p Hp].
      { apply lookup_lt_is_Some. rewrite <- Hlen. by eapply lookup_lt_Some. }
      rewrite Forall_lookup in Hall.
      pose proof (Hcode j p Hp) as Ht. rewrite Hj in Ht. injection Ht as ->.
      by rewrite (Hall j p Hp).
    + right. apply Exists_exists in Hex as (p & Hin & Hne).
      apply list_elem_of_lookup in Hin as [j Hp].
      pose proof (Hlock j p Hp) as Hout.
      destruct p as [[|k]|k|k|v k|r k]; try done.
      * assert (∃ t' s', thread_step (icode b i (Counter.tid j) (IIdle (S k))) s t' s')
          as (t' & s' & Hst).
        { simpl. unfold Increment. destruct (target b); simpl.
          - do 2 eexists. exists (wrap32 (c + 1)). split; [|reflexivity].
            unfold InterlockedIncrement. by rewrite Hi.
          - do 2 eexists. exists tt. split; reflexivity. }
        exact (Hgo j _ _ _ Hp Hst).
      * destruct (Hcre j _ Hp eq_refl) as [_ [cs Hcs]].
        unfold static_owner in Ho. rewrite Hcs in Ho.
        eapply (Hgo j _ _ _ Hp). simpl. exists tt. split; [|reflexivity].
        unfold SafeLock_ctor, on_crit, Lock. rewrite Hcs.
        rewrite (Enter_spec b _ cs (Hrec cs Hcs)), Ho. reflexivity.
  - right. destruct Hlock as (-> & j & p & Hp & Hin & -> & _).
    destruct (Hcre j p Hp) as [_ [cs Hcs]]; [by destruct p|].
    unfold static_owner in Ho. rewrite Hcs in Ho.
    destruct p as [k|k|k|v k|r k]; try done; eapply (Hgo j _ _ _ Hp); simpl.
    + exists c. split; [|reflexivity]. unfold load. by rewrite Hi.
    + exists (c + 1). split; [|reflexivity]. unfold store_int.
      pose proof (Hld j v k Hp) as ->. rewrite Hi.
      by rewrite (wrap32_representable (c + 1))
        by (apply (next_representable pcs c j (ILoaded c k)); simpl; done || lia).
    + exists tt. split; [|reflexivity]. unfold SafeLock_dtor, on_crit, UnLock.
      rewrite Hcs, (Leave_owner b (Counter.tid j) 1 cs Ho). reflexivity.
Qed.

(** Every run can be completed. *)
Lemma IInv_completes k n m :
  (steps_per_call b * (N * M) - n = k)%nat → IInv b N M i ps0 n m →
  ∃ mf, rtc mstep m mf ∧ all_returned mf ∧
        heap mf.2 = <[i:=Z.of_nat N * Z.of_nat M]> (heap ps0).
Proof.
  revert n m. induction k as [|k IH]; intros n m Hk HInv.
  - destruct (IInv_progress n m HInv) as [Hall|[m' Hstep]].
    + exists m. eauto using IInv_final, rtc_refl.
    + destruct (IInv_step n m m' HInv Hstep)
        as (pcs & c & _ & _ & _ & _ & _ & Hs & _).
      destruct HInv as (pcs0 & c0 & _ & _ & _ & _ & _ & Hs0 & _). lia.
  - destruct (IInv_progress n m HInv) as [Hall|[m' Hstep]].
    + exists m. eauto using IInv_final, rtc_refl.
    + destruct (IH (S n) m') as (mf & Hrun & Hfin); [lia|eauto using IInv_step|].
      exists mf. eauto using rtc_l.
Qed.

End Increment_contention.

(** X10.  [Increment] loses no update under contention.  [N] threads each
    call [Increment] [M] times on a location that holds 0, in a process whose
    static lock is not held, with N×M no larger than the largest [int], under
    any preemptive schedule, on the interlocked and on the lock-based path
    alike.  Then no step of the run is undefined, some thread can step unless
    every thread has returned, the run can always be completed, and whenever
    every thread has returned the location holds exactly N×M and the rest of
    the memory is untouched. *)
Theorem Increment_under_contention
    (b : build) (N M : nat) (i : Z) (ps0 : AtomicOps.process)
    (m : machine AtomicOps.process unit) :
  AtomicOps.heap ps0 !! i = Some 0 →
  lock_free ps0 →
  Z.of_nat (N * M) ≤ AtomicOps.INT_MAX →
  rtc mstep (inc_init b N M i ps0) m →
  (all_returned m →
     AtomicOps.heap m.2 = <[i:=Z.of_nat N * Z.of_nat M]> (AtomicOps.heap ps0)) ∧
  ¬ machine_undefined m ∧
  (all_returned m ∨ ∃ m', mstep m m') ∧
  (∃ mf, rtc mstep m mf ∧ all_returned mf ∧
         AtomicOps.heap mf.2 = <[i:=Z.of_nat N * Z.of_nat M]> (AtomicOps.heap ps0)) ∧
  (∀ n, nsteps mstep n (inc_init b N M i ps0) m → (n ≤ steps_per_call b * (N * M))%nat).
Proof.
  intros Hzero Hfree Hbound [n Hn]%rtc_nsteps.
  pose proof (IInv_nsteps b N M i ps0 Hzero Hfree Hbound n m Hn) as HInv.
  split_and!.
  - eauto using IInv_final.
  - eauto using IInv_defined.
  - eauto using IInv_progress.
  - eapply IInv_completes; eauto.
  - intros n' Hn'.
    destruct (IInv_nsteps b N M i ps0 Hzero Hfree Hbound n' m Hn')
      as (pcs & c & _ & _ & _ & _ & _ & Hs & _).
    lia.
Qed.

(** The theorem at the start of a run of three threads, two calls each, on
    the lock-based path. *)
Lemma Increment_under_contention_witness :
  ∃ mf,
    rtc mstep (inc_init (Build APPLE true) 3 2 16 (AtomicOps.mkProcess {[ 16 := 0 ]} None))
      mf ∧
    all_returned mf ∧
    AtomicOps.heap mf.2 = <[16:=Z.of_nat 3 * Z.of_nat 2]> {[ 16 := 0 ]}.
Proof.
  assert (Hv : AtomicOps.heap (AtomicOps.mkProcess {[ 16 := 0 ]} None) !! 16 = Some 0)
    by reflexivity.
  assert (Hb : Z.of_nat (3 * 2) ≤ AtomicOps.INT_MAX)
    by (unfold AtomicOps.INT_MAX; simpl; lia).
  destruct (Increment_under_contention (Build APPLE true) 3 2 16
              (AtomicOps.mkProcess {[ 16 := 0 ]} None) _ Hv I Hb (rtc_refl _ _))
    as (_ & _ & _ & H & _).
  exact H.
Defined.


(** * [SafeSet] under contention *)
Section SafeSet_contention.
Import AtomicOps.
Context (b : build) (x v0 : Z) (ws : list Z) (ps0 : process).
Hypothesis Hx : heap ps0 !! x = Some v0.

Lemma swap_in_Permutation (l : list Z) j a c :
  l !! j = Some a → c :: l ≡ₚ a :: <[j:=c]> l.
Proof.
  revert j. induction l as [|y l IH]; intros [|j] H; simplify_eq/=.
  - apply perm_swap.
  - rewrite perm_swap, (IH j H). apply perm_swap.
Qed.

Lemma set_code_Ret st r : set_code b x st = Ret r → st = Finished r.
Proof.
  destruct st as [w|r']; simpl.
  - unfold SafeSet. by destruct (target b).
  - by intros [= ->].
Qed.

Lemma SInv_init : SInv b x v0 ws ps0 0 (set_init b x ws ps0).
Proof.
  exists (Pending <$> ws), v0. unfold set_init. simpl. split_and!.
  - rewrite <- list_fmap_compose. done.
  - by rewrite set_heap_same.
  - rewrite <- list_fmap_compose. simpl. by rewrite list_fmap_id.
  - induction ws as [|w l IH]; [done|]. rewrite fmap_cons. simpl in *. lia.
Qed.

Lemma SInv_step n m m' :
  SInv b x v0 ws ps0 n m → mstep m m' → SInv b x v0 ws ps0 (S n) m'.
Proof.
  intros (sts & cur & Hts & Hs & Hperm & Hn) Hstep.
  destruct Hstep as [j ts s t t' s' Hj Hstep]. simpl in *. subst ts s.
  rewrite list_lookup_fmap in Hj.
  destruct (sts !! j) as [st|] eqn:Hst; simplify_eq/=.
  destruct st as [w|r]; simpl in Hstep; [|done].
  destruct (SafeSet_step b x w cur
              (set_heap (<[x:=cur]> (heap ps0)) ps0)) as (xchg & Hset & Hxchg).
  { simpl. apply lookup_insert_eq. }
  rewrite Hset in Hstep. apply thread_step_atomic in Hstep as (r & Hr & ->).
  rewrite Hxchg in Hr. injection Hr as <- <-.
  exists (<[j:=Finished cur]> sts), w. simpl. split_and!.
  - by rewrite list_fmap_insert.
  - unfold set_heap. simpl. by rewrite insert_insert_eq.
  - rewrite list_fmap_insert. simpl. rewrite <- Hperm. symmetry.
    apply swap_in_Permutation. by rewrite list_lookup_fmap, Hst.
  - pose proof (sum_list_with_insert_at set_pending sts j (Pending w) (Finished cur) Hst).
    simpl in *. lia.
Qed.

Lemma SInv_nsteps n m :
  nsteps mstep n (set_init b x ws ps0) m → SInv b x v0 ws ps0 n m.
Proof.
  revert m. induction n as [|n IH]; intros m H.
  - inversion H; subst. apply SInv_init.
  - apply nsteps_inv_r in H as (m0 & H0 & Hstep). eauto using SInv_step.
Qed.

Lemma SInv_progress n m :
  SInv b x v0 ws ps0 n m → all_returned m ∨ ∃ m', mstep m m'.
Proof.
  intros (sts & cur & Hts & Hs & Hperm & Hn). destruct m as [ts s]. simpl in *.
  subst ts s.
  destruct (Forall_Exists_dec (λ st, set_pending st = 0%nat) (λ st, set_pending st ≠ 0%nat)
              (λ st, decide (set_pending st = 0%nat)) sts) as [Hall|Hex].
  - left. unfold all_returned. simpl. apply Forall_fmap.
    eapply Forall_impl; [exact Hall|]. by intros [w|r].
  - right. apply Exists_exists in Hex as (st & Hin & Hne).
    apply list_elem_of_lookup in Hin as [j Hst].
    destruct st as [w|r]; [|done].
    destruct (SafeSet_step b x w cur
                (set_heap (<[x:=cur]> (heap ps0)) ps0)) as (xchg & Hset & Hxchg).
    { simpl. apply lookup_insert_eq. }
    eexists. eapply (mstep_thread j).
    + by rewrite list_lookup_fmap, Hst.
    + simpl. rewrite Hset. apply thread_step_atomic. eauto.
Qed.

Lemma SInv_defined n m : SInv b x v0 ws ps0 n m → ¬ machine_undefined m.
Proof.
  intros (sts & cur & Hts & Hs & Hperm & Hn) (j & t & Hj & Hu).
  rewrite Hts, list_lookup_fmap in Hj.
  destruct (sts !! j) as [st|] eqn:Hst; simplify_eq/=.
  destruct st as [w|r]; [|done].
  destruct (SafeSet_step b x w cur
              (set_heap (<[x:=cur]> (heap ps0)) ps0)) as (xchg & Hset & Hxchg).
  { simpl. apply lookup_insert_eq. }
  simpl in Hu. rewrite Hset, Hs in Hu. simpl in Hu. by rewrite Hxchg in Hu.
Qed.

(** When every call has returned, the results and the value stored are the
    initial value and the values set, in some order. *)
Lemma SInv_final n m :
  SInv b x v0 ws ps0 n m → all_returned m →
  ∃ rs cur, m.1 = Ret <$> rs ∧ m.2 = set_heap (<[x:=cur]> (heap ps0)) ps0 ∧
            cur :: rs ≡ₚ v0 :: ws.
Proof.
  intros (sts & cur & Hts & Hs & Hperm & Hn) Hall.
  exists (set_value <$> sts), cur. split_and!; try done.
  rewrite Hts, <- list_fmap_compose. apply Forall_fmap_ext_1.
  unfold all_returned in Hall. rewrite Hts, Forall_fmap in Hall.
  eapply Forall_impl; [exact Hall|]. intros [w|r]; simpl; [|done].
  unfold SafeSet. by destruct (target b).
Qed.

Lemma SInv_returned n m j r :
  SInv b x v0 ws ps0 n m → m.1 !! j = Some (Ret r) → r ∈ v0 :: ws.
Proof.
  intros (sts & cur & Hts & Hs & Hperm & Hn) Hj.
  rewrite Hts, list_lookup_fmap in Hj.
  destruct (sts !! j) as [st|] eqn:Hst; simplify_eq/=.
  apply set_code_Ret in Hj as ->.
  rewrite <- Hperm. right. apply list_elem_of_fmap. exists (Finished r).
  split; [done|]. by eapply list_elem_of_lookup_2.
Qed.

Lemma SInv_completes k n m :
  (length ws - n = k)%nat → SInv b x v0 ws ps0 n m →
  ∃ mf, rtc mstep m mf ∧ all_returned mf.
Proof.
  revert n m. induction k as [|k IH]; intros n m Hk HInv.
  - destruct (SInv_progress n m HInv) as [Hall|[m' Hstep]].
    + exists m. eauto using rtc_refl.
    + destruct (SInv_step n m m' HInv Hstep) as (sts & cur & _ & _ & _ & Hs).
      destruct HInv as (sts0 & cur0 & _ & _ & _ & Hs0). lia.
  - destruct (SInv_progress n m HInv) as [Hall|[m' Hstep]].
    + exists m. eauto using rtc_refl.
    + destruct (IH (S n) m') as (mf & Hrun & Hfin); [lia|eauto using SInv_step|].
      exists mf. eauto using rtc_l.
Qed.

End SafeSet_contention.

(** X11.  [SafeSet] conserves values under contention.  Any number of
    threads each call [SafeSet] once on one location, under any preemptive
    schedule.  No call blocks or is undefined and every run completes; a
    value a call has returned is always the initial value or a value some
    call set (never anything else); and when all calls have returned, their
    results together with the value stored are exactly the initial value and
    the values set, each once: no value is lost and none is handed out
    twice.  Nothing else of the process changes. *)
Theorem SafeSet_conserves_values
    (b : build) (x v0 : Z) (ws : list Z) (ps0 : AtomicOps.process)
    (m : machine AtomicOps.process Z) :
  AtomicOps.heap ps0 !! x = Some v0 →
  rtc mstep (set_init b x ws ps0) m →
  ¬ machine_undefined m ∧
  (all_returned m ∨ ∃ m', mstep m m') ∧
  (∃ mf, rtc mstep m mf ∧ all_returned mf) ∧
  (∀ j r, m.1 !! j = Some (Ret r) → r ∈ v0 :: ws) ∧
  (all_returned m →
     ∃ rs cur, m.1 = Ret <$> rs ∧
               m.2 = AtomicOps.set_heap (<[x:=cur]> (AtomicOps.heap ps0)) ps0 ∧
               cur :: rs ≡ₚ v0 :: ws).
Proof.
  intros Hx [n Hn]%rtc_nsteps.
  pose proof (SInv_nsteps b x v0 ws ps0 Hx n m Hn) as HInv.
  split_and!.
  - eauto using SInv_defined.
  - eauto using SInv_progress.
  - eapply SInv_completes; eauto.
  - intros j r. eauto using SInv_returned.
  - eauto using SInv_final.
Qed.

(** The theorem at the start of a run of three calls. *)
Lemma SafeSet_conserves_values_witness :
  ∃ mf,
    rtc mstep (set_init (Build WIN32 false) 16 [5; 6; 7]
                 (AtomicOps.mkProcess {[ 16 := 0 ]} None)) mf ∧
    all_returned mf.
Proof.
  assert (Hv : AtomicOps.heap (AtomicOps.mkProcess {[ 16 := 0 ]} None) !! 16 = Some 0)
    by reflexivity.
  destruct (SafeSet_conserves_values (Build WIN32 false) 16 0 [5; 6; 7]
              (AtomicOps.mkProcess {[ 16 := 0 ]} None) _ Hv (rtc_refl _ _))
    as (_ & _ & H & _).
  exact H.
Defined.
